(** * Unrolled TITAN: the iteration engine of [TITAN_Unrolled/model.py]

    A shallow embedding of the classes [FCNN_alpha], [W_iter], [C_iter],
    [Block] and [myModel], followed by the properties of the update rules,
    of the coefficient derivation and of the layer composition.

    Conventions of the embedding.
    - Tensor entries and the scalar coefficients are real numbers: float32
      rounding, infinities and NaN are idealised away.  [torch.max],
      [torch.min] and [torch.sqrt] on scalars are [Rmax], [Rmin], [sqrt].
    - A Python exception is a value [Raise e] of the [result] type; a
      function that may fall off its end returns an [option] ([None]).
    - The modules [functions] and [tools] imported by the file, and the
      [torch.nn] layers, are an interface ([Functions], [TorchNN]) over
      which every definition and theorem is parametric. *)

From Stdlib Require Import Reals Lra Lia ZArith List String Bool.
Import ListNotations.

Local Open Scope R_scope.

(** ** Python control flow *)

Inductive exn : Type :=
| TypeError          (* unpacking None *)
| ValueError         (* unpacking a shape of the wrong length *)
| IndexError         (* ModuleList index out of range *)
| ZeroDivisionError  (* Python number divided by zero *)
| RuntimeError.      (* torch: size mismatch *)

Inductive result (A : Type) : Type :=
| Ok (a : A)
| Raise (e : exn).
Arguments Ok {A} a.
Arguments Raise {A} e.

Definition bind {A B : Type} (r : result A) (k : A -> result B) : result B :=
  match r with
  | Ok a => k a
  | Raise e => Raise e
  end.

Declare Scope py_scope.
Delimit Scope py_scope with py.
Notation "x <- c1 ;; c2" := (bind c1 (fun x => c2))
  (at level 61, c1 at next level, right associativity) : py_scope.
Notation "' p <- c1 ;; c2" := (bind c1 (fun p => c2))
  (at level 61, p pattern, c1 at next level, right associativity) : py_scope.
Local Open Scope py_scope.

(** What one pass through a loop body does: go on with the updated
    locals, or leave the enclosing function through [return]. *)
Inductive flow (St A : Type) : Type :=
| Continue (s : St)
| Return (a : A).
Arguments Continue {St A} s.
Arguments Return {St A} a.

(** [for i in range(start, start + n): body], threading the locals [s]. *)
Fixpoint for_range_from {St A : Type} (start n : nat)
    (body : nat -> St -> result (flow St A)) (s : St) : result (flow St A) :=
  match n with
  | O => Ok (Continue s)
  | S n' =>
      r <- body start s ;;
      match r with
      | Continue s' => for_range_from (S start) n' body s'
      | Return a => Ok (Return a)
      end
  end.

Definition for_range {St A : Type} (n : nat)
    (body : nat -> St -> result (flow St A)) (s : St) : result (flow St A) :=
  for_range_from 0 n body s.

(** ** Tensors *)

Record Tensor : Type := mkTensor { shape : list nat; values : list R }.

Fixpoint zip_with {A B C : Type} (f : A -> B -> C) (l : list A) (l' : list B)
    : list C :=
  match l, l' with
  | a :: t, b :: t' => f a b :: zip_with f t t'
  | _, _ => []
  end.

(** Elementwise operations.  The update rules only combine operands of equal
    shape (an iterate with its own snapshot, or with a gradient of its
    shape); the result carries the shape of the left operand. *)
Definition t_add (A B : Tensor) : Tensor :=
  mkTensor (shape A) (zip_with Rplus (values A) (values B)).
Definition t_sub (A B : Tensor) : Tensor :=
  mkTensor (shape A) (zip_with Rminus (values A) (values B)).
Definition t_scale (c : R) (A : Tensor) : Tensor :=
  mkTensor (shape A) (map (Rmult c) (values A)).

(** [T.clone()]: a fresh tensor with the same entries. *)
Definition clone (A : Tensor) : Tensor := A.

(** [T.view(-1)] and [torch.cat] of one-dimensional tensors. *)
Definition view_flat (A : Tensor) : Tensor :=
  mkTensor [List.length (values A)] (values A).
Definition cat (A B : Tensor) : Tensor :=
  mkTensor [(List.length (values A) + List.length (values B))%nat]
    (values A ++ values B).

Definition shape_eqb (A B : Tensor) : bool :=
  if list_eq_dec Nat.eq_dec (shape A) (shape B) then true else false.

(** ** The imported primitives *)

(** [from functions import *], [from tools import *]. *)
Class Functions : Type := {
  spectral_norm_extracted : Tensor -> nat -> nat -> R;
  lipschitz : Tensor -> R -> R;
  grad_H_W : Tensor -> Tensor -> Tensor -> Tensor;
  grad_H_C_reg : Tensor -> Tensor -> Tensor -> R -> Tensor;
  prox_f : Tensor -> R -> Tensor;
  prox_g : Tensor -> R -> R -> Tensor
}.

(** A trainable [torch.nn.Parameter]. *)
Record NNParameter : Type := mkNNParameter {
  data : Tensor;
  requires_grad : bool;
  grad : option Tensor
}.

(** [torch.nn.Linear]: its two parameters. *)
Record Linear : Type := mkLinear { weight : NNParameter; bias : NNParameter }.

(** The [torch.nn] layers: applying a [Linear] to a vector (which raises on
    a size mismatch) and the [Softplus] activation. *)
Class TorchNN : Type := {
  Linear_forward : Linear -> Tensor -> result Tensor;
  Softplus : Tensor -> Tensor
}.

(** A tensor of shape [sh] whose entry number [i], in row-major order, is
    [entries i]. *)
Definition tensor_of (sh : list nat) (entries : nat -> R) : Tensor :=
  mkTensor sh (map entries (seq 0 (fold_right Nat.mul 1%nat sh))).

(** [torch.nn.Linear(in_features, out_features)]: a weight of shape
    [out_features, in_features] and a bias of shape [out_features], both
    trainable and without gradient.  The entries are drawn at random; [w]
    and [b] stand for the draw. *)
Definition Linear_init (in_features out_features : nat) (w b : nat -> R)
    : Linear :=
  mkLinear (mkNNParameter (tensor_of [out_features; in_features] w) true None)
           (mkNNParameter (tensor_of [out_features] b) true None).

(** ** class FCNN_alpha *)

Module FCNN_alpha.

Record t : Type := mk { fc1 : Linear; fc2 : Linear; fc3 : Linear }.

(** [__init__]; [rand k] is the draw for the [k]-th parameter. *)
Definition init (input_size hidden_size1 hidden_size2 output_size : nat)
    (rand : nat -> nat -> R) : t :=
  mk (Linear_init input_size hidden_size1 (rand 0%nat) (rand 1%nat))
     (Linear_init hidden_size1 hidden_size2 (rand 2%nat) (rand 3%nat))
     (Linear_init hidden_size2 output_size (rand 4%nat) (rand 5%nat)).

Section Forward.
Context `{TorchNN}.

(** The predictor as [Block.__init__] builds it: [fc3] has one output
    (output_size = 1), and the prediction is that one entry, which the
    caller uses as a scalar.  A predictor with more outputs, whose vector
    the code would return, is outside this embedding and ends the call
    here.  Tensors are their entries in row-major order: the memory layout
    that [view(-1)] depends on (it raises on a non-contiguous tensor) is
    not modelled. *)
Definition forward (self : t) (W C : Tensor) : result R :=
  let W := view_flat W in
  let C := view_flat C in
  let x := cat W C in
  x <- Linear_forward (fc1 self) x ;;
  let x := Softplus x in
  x <- Linear_forward (fc2 self) x ;;
  let x := Softplus x in
  x <- Linear_forward (fc3 self) x ;;
  let x := Softplus x in
  match values x with
  | [a] => Ok a
  | _ => Raise RuntimeError
  end.
End Forward.

End FCNN_alpha.

(** ** class W_iter *)

Module W_iter.

Record t : Type := mk { N_updates_W : nat }.

Section Methods.
Context `{Functions}.

Definition inertial_step (beta_w : R) (W W_old : Tensor) : Tensor :=
  let W := t_add W (t_scale beta_w (t_sub W W_old)) in
  W.

Definition gradient_step (Rx : Tensor) (c_w : R) (W C : Tensor) : Tensor :=
  let W := t_sub W (t_scale c_w (grad_H_W W C Rx)) in
  W.

Definition prox_step (c_w : R) (W : Tensor) : Tensor := prox_f W c_w.

Definition update (Rx W W_old C : Tensor) (c_w beta_w : R)
    : Tensor * Tensor :=
  let W_inertial := inertial_step beta_w W W_old in
  let W_old := clone W in
  let W_gradient := gradient_step Rx c_w W_inertial C in
  let W_prox := prox_step c_w W_gradient in
  (W_prox, W_old).

Definition forward (self : t) (Rx W C : Tensor) (c_w beta_w : R)
    : result Tensor :=
  let W_old := clone W in
  r <- for_range (A := Tensor) (N_updates_W self)
         (fun _ '(W, W_old) =>
            let '(W, W_old) := update Rx W W_old C c_w beta_w in
            Ok (Continue (W, W_old)))
         (W, W_old) ;;
  match r with
  | Continue (W, _) => Ok W
  | Return W => Ok W
  end.
End Methods.

End W_iter.

(** ** class C_iter *)

Module C_iter.

Record t : Type := mk { N_updates_C : nat }.

Section Methods.
Context `{Functions}.

Definition inertial_step (beta_c : R) (C C_old : Tensor) : Tensor :=
  let C := t_add C (t_scale beta_c (t_sub C C_old)) in
  C.

Definition gradient_step (Rx : Tensor) (c_c : R) (C W : Tensor) (alpha : R)
    : Tensor :=
  let C := t_sub C (t_scale c_c (grad_H_C_reg W C Rx alpha)) in
  C.

Definition prox_step (c_c : R) (C : Tensor) (eps : R) : Tensor :=
  prox_g C c_c eps.

Definition update (Rx C C_old W_updated : Tensor) (c_c beta_c alpha eps : R)
    : Tensor * Tensor :=
  let C_inertial := inertial_step beta_c C C_old in
  let C_old := clone C in
  let C_gradient := gradient_step Rx c_c C_inertial W_updated alpha in
  let C_prox := prox_step c_c C_gradient eps in
  (C_prox, C_old).

(** The [return] sits inside the loop body; when the loop body never
    runs the function falls off its end and yields [None]. *)
Definition forward (self : t) (Rx C W_updated : Tensor)
    (c_c beta_c alpha eps : R) : result (option (Tensor * Tensor)) :=
  r <- for_range (N_updates_C self)
         (fun _ C =>
            let C_old := clone C in
            let '(C, C_old) :=
              update Rx C C_old W_updated c_c beta_c alpha eps in
            Ok (Return (Some (C, C_old))))
         C ;;
  match r with
  | Return v => Ok v
  | Continue _ => Ok None
  end.
End Methods.

End C_iter.

(** ** torch.nn.ModuleList *)

(** [Layers[idx]]: an index in [-len, len) selects an element, negative
    ones counting from the end; any other index raises [IndexError]. *)
Definition ModuleList_getitem {A : Type} (l : list A) (idx : Z) : result A :=
  let len := Z.of_nat (List.length l) in
  if ((- len <=? idx) && (idx <? len))%Z then
    let idx := if (idx <? 0)%Z then (idx + len)%Z else idx in
    match nth_error l (Z.to_nat idx) with
    | Some x => Ok x
    | None => Raise IndexError
    end
  else Raise IndexError.

(** The module at position [i] after it was mutated in place. *)
Fixpoint ModuleList_store {A : Type} (l : list A) (i : nat) (x : A) : list A :=
  match l, i with
  | [], _ => []
  | _ :: t, O => x :: t
  | a :: t, S i' => a :: ModuleList_store t i' x
  end.

(** ** class Block *)

Module Block.

(** [training] is the flag that [train()]/[eval()] set on the block and
    on all its submodules at once. *)
Record t : Type := mk {
  input_dim : nat;
  NN_alpha : FCNN_alpha.t;
  W_iter : W_iter.t;
  C_iter : C_iter.t;
  gamma_c : R;
  gamma_w : R;
  eps : R;
  nu : R;
  zeta : R;
  training : bool
}.

(** [__init__]: the predictor has hidden sizes 64 and 32 and one output;
    a new module is in training mode. *)
Definition init (input_dim N_updates_W N_updates_C : nat)
    (gamma_c gamma_w eps nu zeta : R) (rand : nat -> nat -> R) : t :=
  mk input_dim (FCNN_alpha.init input_dim 64 32 1 rand)
     (W_iter.mk N_updates_W) (C_iter.mk N_updates_C)
     gamma_c gamma_w eps nu zeta true.

(** *** Inherited from torch.nn.Module *)

Definition eval (self : t) : t :=
  mk (input_dim self) (NN_alpha self) (W_iter self) (C_iter self)
     (gamma_c self) (gamma_w self) (eps self) (nu self) (zeta self) false.

(** [parameters()], in registration order. *)
Definition parameters (self : t) : list NNParameter :=
  let n := NN_alpha self in
  [ weight (FCNN_alpha.fc1 n); bias (FCNN_alpha.fc1 n);
    weight (FCNN_alpha.fc2 n); bias (FCNN_alpha.fc2 n);
    weight (FCNN_alpha.fc3 n); bias (FCNN_alpha.fc3 n) ].

(** The block after [f] was applied to each of its parameter objects. *)
Definition map_parameters (f : NNParameter -> NNParameter) (self : t) : t :=
  let n := NN_alpha self in
  let on_linear (l : Linear) := mkLinear (f (weight l)) (f (bias l)) in
  mk (input_dim self)
     (FCNN_alpha.mk (on_linear (FCNN_alpha.fc1 n))
                    (on_linear (FCNN_alpha.fc2 n))
                    (on_linear (FCNN_alpha.fc3 n)))
     (W_iter self) (C_iter self)
     (gamma_c self) (gamma_w self) (eps self) (nu self) (zeta self)
     (training self).

Definition param_names : list string :=
  [ "NN_alpha.fc1.weight"; "NN_alpha.fc1.bias";
    "NN_alpha.fc2.weight"; "NN_alpha.fc2.bias";
    "NN_alpha.fc3.weight"; "NN_alpha.fc3.bias" ]%string.

(** [state_dict()]: the parameter tensors under their dotted names. *)
Definition state_dict (self : t) : list (string * Tensor) :=
  combine param_names (map data (parameters self)).

Fixpoint dict_get (sd : list (string * Tensor)) (key : string)
    : option Tensor :=
  match sd with
  | [] => None
  | (k, v) :: rest => if String.eqb k key then Some v else dict_get rest key
  end.

(** [param.copy_(input_param)]: the entries change, the flags stay. *)
Definition load_param (sd : list (string * Tensor)) (key : string)
    (p : NNParameter) : result NNParameter :=
  match dict_get sd key with
  | None => Raise RuntimeError                      (* missing key *)
  | Some v =>
      if shape_eqb v (data p)
      then Ok (mkNNParameter v (requires_grad p) (grad p))
      else Raise RuntimeError                       (* size mismatch *)
  end.

(** [load_state_dict(sd)] with [strict=True]. *)
Definition load_state_dict (self : t) (sd : list (string * Tensor))
    : result t :=
  let n := NN_alpha self in
  if forallb (fun kv => existsb (String.eqb (fst kv)) param_names) sd then
    w1 <- load_param sd "NN_alpha.fc1.weight" (weight (FCNN_alpha.fc1 n)) ;;
    b1 <- load_param sd "NN_alpha.fc1.bias" (bias (FCNN_alpha.fc1 n)) ;;
    w2 <- load_param sd "NN_alpha.fc2.weight" (weight (FCNN_alpha.fc2 n)) ;;
    b2 <- load_param sd "NN_alpha.fc2.bias" (bias (FCNN_alpha.fc2 n)) ;;
    w3 <- load_param sd "NN_alpha.fc3.weight" (weight (FCNN_alpha.fc3 n)) ;;
    b3 <- load_param sd "NN_alpha.fc3.bias" (bias (FCNN_alpha.fc3 n)) ;;
    Ok (mk (input_dim self)
           (FCNN_alpha.mk (mkLinear w1 b1) (mkLinear w2 b2) (mkLinear w3 b3))
           (W_iter self) (C_iter self)
           (gamma_c self) (gamma_w self) (eps self) (nu self) (zeta self)
           (training self))
  else Raise RuntimeError.                          (* unexpected key *)

(** *** Methods of the class *)

Section Methods.
Context `{Functions} `{TorchNN}.

(** [K] and [N] are Python integers and the theory constants Python
    numbers: [gamma_c**2 / K**2] is computed before it is wrapped in a
    tensor, and raises when [K] is 0.  The arithmetic is that of the real
    numbers: the overflow of float32 (and of [gamma_c**2] in Python
    floats) is not modelled, so the returned values are those of the code
    where its computation neither overflows nor underflows. *)
Definition get_coefficients (self : t) (Rx : Tensor) (alpha : R)
    (C C_old : Tensor) : result (R * R * R * R) :=
  match shape C with
  | [K; _; N] =>
      let rho_Rx := spectral_norm_extracted Rx K N in
      let l_sup :=
        Rmax ((gamma_w self * alpha) / (1 - gamma_w self))
             (rho_Rx * 2 * INR K
              * (1 + sqrt (2 / (alpha * gamma_c self)))) in
      expr3 <- (if Nat.eqb (K ^ 2) 0 then Raise ZeroDivisionError
                else Ok (gamma_c self ^ 2 / INR (K ^ 2))) ;;
      let expr4 :=
        alpha * gamma_w self
        / ((1 + zeta self) * (1 - gamma_w self) * l_sup) in
      let expr5 := rho_Rx / ((1 + zeta self) * l_sup) in
      let C0 := Rmin (Rmin expr3 expr4) expr5 in
      let L_inf := (1 + zeta self) * C0 * l_sup in
      let L_w_prev := Rmax L_inf (lipschitz C_old rho_Rx) in
      let L_w := Rmax L_inf (lipschitz C rho_Rx) in
      let c_w := gamma_w self / L_w in
      let beta_w :=
        (1 - gamma_w self)
        * sqrt (C0 * nu self * (1 - nu self) * L_w_prev / L_w) in
      let c_c := gamma_c self / alpha in
      let beta_c := sqrt (C0 * nu self * (1 - nu self)) in
      Ok (c_w, beta_w, c_c, beta_c)
  | _ => Raise ValueError
  end.

Definition forward (self : t) (Rx W C C_old : Tensor)
    : result (Tensor * Tensor * Tensor) :=
  alpha <- FCNN_alpha.forward (NN_alpha self) W C ;;
  '(c_w, beta_w, c_c, beta_c) <- get_coefficients self Rx alpha C C_old ;;
  W_updated <- W_iter.forward (W_iter self) Rx W C c_w beta_w ;;
  r <- C_iter.forward (C_iter self) Rx C W_updated c_c beta_c alpha
         (eps self) ;;
  match r with
  | Some (C_updated, C_old) => Ok (W_updated, C_updated, C_old)
  | None => Raise TypeError
  end.
End Methods.

End Block.

(** ** class myModel *)

Module myModel.

Record t : Type := mk { Layers : list Block.t }.

(** [__init__]: [num_layers] blocks built from the same arguments, each
    with its own draw [rand i] of parameters. *)
Definition init (input_dim N_updates_W N_updates_C num_layers : nat)
    (gamma_c gamma_w eps nu zeta : R) (rand : nat -> nat -> nat -> R) : t :=
  mk (map (fun i => Block.init input_dim N_updates_W N_updates_C
                      gamma_c gamma_w eps nu zeta (rand i))
          (seq 0 num_layers)).

Definition freeze_parameter (p : NNParameter) : NNParameter :=
  mkNNParameter (data p) false None.

Definition GradFalse (self : t) (block : Z) (mode : string) : result t :=
  if (1 <=? block)%Z then
    layers <-
      (if String.eqb mode "greedy" then
         target <- ModuleList_getitem (Layers self) block ;;
         source <- ModuleList_getitem (Layers self) (block - 1) ;;
         target <- Block.load_state_dict target (Block.state_dict source) ;;
         Ok (ModuleList_store (Layers self) (Z.to_nat block) target)
       else Ok (Layers self)) ;;
    r <- for_range (A := unit) (Z.to_nat block)
           (fun i layers =>
              b <- ModuleList_getitem layers (Z.of_nat i) ;;
              let b := Block.eval b in
              let b := Block.map_parameters freeze_parameter b in
              Ok (Continue (ModuleList_store layers i b)))
           layers ;;
    match r with
    | Continue layers => Ok (mk layers)
    | Return _ => Ok (mk layers)
    end
  else Ok self.

Section Methods.
Context `{Functions} `{TorchNN}.

(** [layer] has the default value 0 in the source.  The local [C_old] is
    unbound ([None]) until its first assignment. *)
Definition forward (self : t) (Rx W C : Tensor) (mode : string)
    (layer : Z) : result (Tensor * Tensor) :=
  if (String.eqb mode "first_layer" || String.eqb mode "greedy")%bool then
    let C_old := clone C in
    b <- ModuleList_getitem (Layers self) layer ;;
    '(W, C, C_old) <- Block.forward b Rx W C C_old ;;
    Ok (W, C)
  else if String.eqb mode "test" then
    r <- for_range (A := Tensor * Tensor) (List.length (Layers self))
           (fun i '(W, C, _) =>
              let C_old := clone C in
              b <- ModuleList_getitem (Layers self) (Z.of_nat i) ;;
              '(W, C, C_old) <- Block.forward b Rx W C C_old ;;
              Ok (Continue (W, C, Some C_old)))
           (W, C, @None Tensor) ;;
    match r with
    | Continue (W, C, _) => Ok (W, C)
    | Return v => Ok v
    end
  else Ok (W, C).
End Methods.

End myModel.


(** * The specification's wording of the algorithms

    The definitions of this part follow the sentences of the specification,
    not the code; the theorems further down compare the two. *)

Section Spec_W_iter.
Context `{Functions}.
Variables (Rx C : Tensor) (c_w beta_w : R).

(** One sub-step: extrapolate against [W_old], step along the gradient,
    apply the proximal operator. *)
Definition spec_W_substep (W_k W_old : Tensor) : Tensor :=
  let W_in := t_add W_k (t_scale beta_w (t_sub W_k W_old)) in
  prox_f (t_sub W_in (t_scale c_w (grad_H_W W_in C Rx))) c_w.

(** The iterates: the inertia of a sub-step compares the iterate entering
    it with the iterate that entered the sub-step before; the first
    sub-step compares the input with itself. *)
Fixpoint spec_W_iterate (W : Tensor) (k : nat) : Tensor :=
  match k with
  | O => W
  | S k' =>
      spec_W_substep (spec_W_iterate W k')
        (match k' with
         | O => W
         | S k'' => spec_W_iterate W k''
         end)
  end.

Definition spec_W_previous (W : Tensor) (k : nat) : Tensor :=
  match k with
  | O => W
  | S k' => spec_W_iterate W k'
  end.
End Spec_W_iter.

Section Spec_C_iter.
Context `{Functions}.

(** A plain proximal-gradient step on [C], without inertia. *)
Definition spec_C_plain_step (Rx C W : Tensor) (c_c alpha eps : R) : Tensor :=
  prox_g (t_sub C (t_scale c_c (grad_H_C_reg W C Rx alpha))) c_c eps.
End Spec_C_iter.

(** The coefficient derivation of the specification, from the theory
    constants, [K], [alpha], the spectral norm and the two Lipschitz
    bounds. *)
Section Spec_coefficients.
Variables (gamma_c gamma_w nu zeta : R) (K : nat).
Variables (rho_Rx alpha lip_C lip_C_old : R).

Definition Rmin3 (a b c : R) : R := Rmin a (Rmin b c).

Definition spec_l_sup : R :=
  Rmax (gamma_w * alpha / (1 - gamma_w))
       (rho_Rx * (2 * INR K) * (1 + sqrt (2 / (alpha * gamma_c)))).

Definition spec_C0 : R :=
  Rmin3 (gamma_c ^ 2 / INR K ^ 2)
        (alpha * gamma_w / ((1 + zeta) * (1 - gamma_w) * spec_l_sup))
        (rho_Rx / ((1 + zeta) * spec_l_sup)).

Definition spec_L_inf : R := (1 + zeta) * spec_C0 * spec_l_sup.
Definition spec_L_w_prev : R := Rmax spec_L_inf lip_C_old.
Definition spec_L_w : R := Rmax spec_L_inf lip_C.

Definition spec_c_w : R := gamma_w / spec_L_w.
Definition spec_beta_w : R :=
  (1 - gamma_w) * sqrt (spec_C0 * nu * (1 - nu) * spec_L_w_prev / spec_L_w).
Definition spec_c_c : R := gamma_c / alpha.
Definition spec_beta_c : R := sqrt (spec_C0 * nu * (1 - nu)).

Definition spec_coefficients : R * R * R * R :=
  (spec_c_w, spec_beta_w, spec_c_c, spec_beta_c).
End Spec_coefficients.

Section Spec_myModel.
Context `{Functions} `{TorchNN}.

(** One block call with a fresh snapshot of [C] as [C_old]; the [C_old]
    the block hands back is dropped. *)
Definition spec_single_block (b : Block.t) (Rx W C : Tensor)
    : result (Tensor * Tensor) :=
  '(W', C', _) <- Block.forward b Rx W C (clone C) ;;
  Ok (W', C').

(** The blocks applied once each, in order. *)
Fixpoint spec_apply_blocks (blocks : list Block.t) (Rx W C : Tensor)
    : result (Tensor * Tensor) :=
  match blocks with
  | [] => Ok (W, C)
  | b :: rest =>
      '(W', C') <- spec_single_block b Rx W C ;;
      spec_apply_blocks rest Rx W' C'
  end.

(** Chaining single-layer calls of the network by hand, one for each
    index of [layers], feeding each call the pair the call before
    returned. *)
Fixpoint spec_chain_calls (self : myModel.t) (Rx : Tensor)
    (layers : list nat) (W C : Tensor) : result (Tensor * Tensor) :=
  match layers with
  | [] => Ok (W, C)
  | i :: rest =>
      '(W', C') <- myModel.forward self Rx W C "first_layer" (Z.of_nat i) ;;
      spec_chain_calls self Rx rest W' C'
  end.
End Spec_myModel.


Section Spec_GradFalse.

(** What the freeze property speaks about: the entries of the parameters
    of a layer, their gradient flags, and a layer being frozen. *)
Definition param_values (b : Block.t) : list Tensor :=
  map data (Block.parameters b).


Definition frozen (b : Block.t) : Prop :=
  Block.training b = false
  /\ Forall (fun p => requires_grad p = false /\ grad p = None)
       (Block.parameters b).

(** All layers are built by [myModel.__init__] from one [input_dim]: their
    parameters have the same shapes. *)
Definition same_architecture (self : myModel.t) : Prop :=
  forall b b' : Block.t,
    In b (myModel.Layers self) -> In b' (myModel.Layers self) ->
    map shape (param_values b) = map shape (param_values b').

(** A layer after [eval()] and the freezing of each of its parameters. *)
Definition freeze_block (b : Block.t) : Block.t :=
  Block.map_parameters myModel.freeze_parameter (Block.eval b).

Definition freeze_prefix (n : nat) (layers : list Block.t) : list Block.t :=
  map freeze_block (firstn n layers) ++ skipn n layers.

(** [target] with the entries of the parameters of [source]. *)
Definition copy_values (target source : Block.t) : Block.t :=
  let n := Block.NN_alpha target in
  let m := Block.NN_alpha source in
  let copy (p q : NNParameter) :=
    mkNNParameter (data q) (requires_grad p) (grad p) in
  let on_linear (l k : Linear) :=
    mkLinear (copy (weight l) (weight k)) (copy (bias l) (bias k)) in
  Block.mk (Block.input_dim target)
    (FCNN_alpha.mk
       (on_linear (FCNN_alpha.fc1 n) (FCNN_alpha.fc1 m))
       (on_linear (FCNN_alpha.fc2 n) (FCNN_alpha.fc2 m))
       (on_linear (FCNN_alpha.fc3 n) (FCNN_alpha.fc3 m)))
    (Block.W_iter target) (Block.C_iter target)
    (Block.gamma_c target) (Block.gamma_w target) (Block.eps target)
    (Block.nu target) (Block.zeta target) (Block.training target).

End Spec_GradFalse.

(** * Concrete instances

    A reference implementation of the [torch.nn] layers and a small
    network (N = K = 1), on which the theorems are exercised. *)

Definition dot (l l' : list R) : R := fold_right Rplus 0 (zip_with Rmult l l').

(** The rows of a row-major [out x n_in] matrix. *)
Fixpoint matrix_rows (n_in out : nat) (w : list R) : list (list R) :=
  match out with
  | O => []
  | S out' => firstn n_in w :: matrix_rows n_in out' (skipn n_in w)
  end.

(** [y = x A^T + b] for a vector [x]; a size mismatch raises. *)
Definition reference_linear (l : Linear) (x : Tensor) : result Tensor :=
  match shape (data (weight l)), shape (data (bias l)), shape x with
  | [out; n_in], [out'], [n] =>
      if (Nat.eqb n_in n && Nat.eqb out out')%bool then
        Ok (mkTensor [out]
              (zip_with Rplus
                 (map (fun row => dot row (values x))
                    (matrix_rows n_in out (values (data (weight l)))))
                 (values (data (bias l)))))
      else Raise RuntimeError
  | _, _, _ => Raise RuntimeError
  end.

(** [Softplus] with its default [beta = 1], [threshold = 20]. *)
Definition reference_softplus (x : Tensor) : Tensor :=
  mkTensor (shape x)
    (map (fun v => if Rlt_dec 20 v then v else ln (1 + exp v)) (values x)).

Definition reference_nn : TorchNN :=
  {| Linear_forward := reference_linear; Softplus := reference_softplus |}.

(** Simple primitives: quadratic data-fit terms, identity proximal
    operators, unit spectral norm, and the leading entry of [C] as its
    Lipschitz bound. *)
Definition demo_functions : Functions :=
  {| spectral_norm_extracted := fun _ _ _ => 1;
     lipschitz := fun C _ => hd 1 (values C);
     grad_H_W := fun W _ _ => W;
     grad_H_C_reg := fun _ C _ alpha => t_scale alpha C;
     prox_f := fun W _ => W;
     prox_g := fun C _ _ => C |}.

Definition zeros (sh : list nat) : Tensor :=
  mkTensor sh (repeat 0 (fold_right Nat.mul 1%nat sh)).

Definition demo_linear (out n_in : nat) : Linear :=
  mkLinear (mkNNParameter (zeros [out; n_in]) true None)
           (mkNNParameter (zeros [out]) true None).

(** The predictor that [Block.__init__] builds for [input_dim = 2]: hidden
    sizes 64 and 32, one output. *)
Definition demo_NN_alpha : FCNN_alpha.t :=
  FCNN_alpha.mk (demo_linear 64 2) (demo_linear 32 64) (demo_linear 1 32).

(** A block with the constants of the specification's concrete scenario. *)
Definition demo_block (N_updates_W N_updates_C : nat) : Block.t :=
  Block.mk 2 demo_NN_alpha (W_iter.mk N_updates_W) (C_iter.mk N_updates_C)
    1 (99 / 100) (1 / 1000000000000) (1 / 2) (1 / 10) true.


Definition demo_W : Tensor := mkTensor [1; 1; 1]%nat [1 / 2].
Definition demo_C : Tensor := mkTensor [1; 1; 1]%nat [1].
Definition demo_Rx : Tensor := mkTensor [1; 1; 1]%nat [1].



(** Networks over the demo blocks. *)
Definition demo_net1 : myModel.t := myModel.mk [demo_block 1 1].
Definition demo_net5 : myModel.t :=
  myModel.mk (map (fun n => demo_block n 1) [1; 2; 3; 4; 5]%nat).


(** * Contracts of the primitives and further wording

    What the update rules expect of the imported primitives and of the
    [torch.nn] layers, as properties an implementation may have. *)

Section Contracts.
Context `{Functions} `{TorchNN}.

(** A plain proximal-gradient step on [W], without inertia. *)
Definition spec_W_plain_step (Rx C : Tensor) (c_w : R) (W : Tensor) : Tensor :=
  prox_f (t_sub W (t_scale c_w (grad_H_W W C Rx))) c_w.

(** Two tensors of one shape and one number of entries. *)
Definition same_extent (A B : Tensor) : Prop :=
  shape A = shape B
  /\ List.length (values A) = List.length (values B).

(** The contract of the primitives: a gradient has the extent of the
    iterate it is taken at, a proximal operator returns a tensor of the
    extent of its argument.  Under it every elementwise operation of the
    update rules combines operands of equal shape. *)
Definition primitives_keep_extent : Prop :=
  (forall T c, same_extent (prox_f T c) T)
  /\ (forall W C Rx, same_extent (grad_H_W W C Rx) W)
  /\ (forall T c e, same_extent (prox_g T c e) T)
  /\ (forall W C Rx alpha, same_extent (grad_H_C_reg W C Rx alpha) C).

(** Its parts: the entries the [W] primitives keep, the shapes the
    proximal operators keep. *)
Definition W_entries_kept : Prop :=
  (forall T c, List.length (values (prox_f T c)) = List.length (values T))
  /\ (forall W C Rx,
        List.length (values (grad_H_W W C Rx)) = List.length (values W)).

Definition prox_shapes_kept : Prop :=
  (forall T c, shape (prox_f T c) = shape T)
  /\ (forall T c e, shape (prox_g T c e) = shape T).

(** Applying a [Linear] reads the entries of its weight and bias, not their
    gradient flags. *)
Definition Linear_reads_data : Prop :=
  forall (l l' : Linear) (x : Tensor),
    data (weight l) = data (weight l') ->
    data (bias l) = data (bias l') ->
    Linear_forward l x = Linear_forward l' x.

End Contracts.

(** The configuration a block is built with, apart from its predictor. *)
Definition hyperparameters (b : Block.t)
    : nat * W_iter.t * C_iter.t * (R * R * R * R * R) :=
  (Block.input_dim b, Block.W_iter b, Block.C_iter b,
   (Block.gamma_c b, Block.gamma_w b, Block.eps b, Block.nu b, Block.zeta b)).

(** Further demo inputs: a zero [W], a block without [C] updates in a
    network, and a network as the constructor builds it, all its draws
    being 0. *)
Definition zero_W : Tensor := mkTensor [1; 1; 1]%nat [0].
Definition broken_net : myModel.t :=
  myModel.mk [demo_block 1 1; demo_block 1 0].
Definition new_net : myModel.t :=
  myModel.init 2 1 1 3 1 (99 / 100) (1 / 1000000000000) (1 / 2) (1 / 10)
    (fun _ _ _ => 0).

(** * Where the derivation is computed without overflow

    The code evaluates the coefficient derivation in float32 (and the
    quotient [gamma_c**2 / K**2] in Python numbers).  The inputs and every
    value it computes on the way, in the order of the source: *)
Definition derivation_values (gamma_c gamma_w nu zeta : R) (K : nat)
    (rho_Rx alpha lip_C lip_C_old : R) : list R :=
  let l_sup := spec_l_sup gamma_c gamma_w K rho_Rx alpha in
  let C0 := spec_C0 gamma_c gamma_w zeta K rho_Rx alpha in
  let L_inf := spec_L_inf gamma_c gamma_w zeta K rho_Rx alpha in
  let L_w_prev :=
    spec_L_w_prev gamma_c gamma_w zeta K rho_Rx alpha lip_C_old in
  let L_w := spec_L_w gamma_c gamma_w zeta K rho_Rx alpha lip_C in
  [ alpha; gamma_c; gamma_w; nu; zeta; rho_Rx; lip_C; lip_C_old;
    gamma_w * alpha; 1 - gamma_w; gamma_w * alpha / (1 - gamma_w);
    rho_Rx * 2; rho_Rx * 2 * INR K;
    alpha * gamma_c; 2 / (alpha * gamma_c); sqrt (2 / (alpha * gamma_c));
    1 + sqrt (2 / (alpha * gamma_c));
    rho_Rx * 2 * INR K * (1 + sqrt (2 / (alpha * gamma_c)));
    l_sup;
    gamma_c ^ 2; INR (K ^ 2); gamma_c ^ 2 / INR (K ^ 2);
    alpha * gamma_w; 1 + zeta; (1 + zeta) * (1 - gamma_w);
    (1 + zeta) * (1 - gamma_w) * l_sup;
    alpha * gamma_w / ((1 + zeta) * (1 - gamma_w) * l_sup);
    (1 + zeta) * l_sup; rho_Rx / ((1 + zeta) * l_sup);
    C0; (1 + zeta) * C0; L_inf; L_w_prev; L_w;
    gamma_w / L_w;
    1 - nu; C0 * nu; C0 * nu * (1 - nu); C0 * nu * (1 - nu) * L_w_prev;
    C0 * nu * (1 - nu) * L_w_prev / L_w;
    sqrt (C0 * nu * (1 - nu) * L_w_prev / L_w);
    (1 - gamma_w) * sqrt (C0 * nu * (1 - nu) * L_w_prev / L_w);
    gamma_c / alpha;
    sqrt (C0 * nu * (1 - nu)) ].

(** A positive value well inside the normal range of float32, whose
    largest finite number is just below [2^128] and whose smallest normal
    number is [2^-126]. *)
Definition float32_safe (x : R) : Prop := / 2 ^ 100 <= x <= 2 ^ 100.

(** The derivation neither overflows nor underflows: on such inputs the
    float32 computation of the code follows the real-valued derivation up
    to rounding. *)
Definition derivation_in_range (gamma_c gamma_w nu zeta : R) (K : nat)
    (rho_Rx alpha lip_C lip_C_old : R) : Prop :=
  Forall float32_safe
    (derivation_values gamma_c gamma_w nu zeta K rho_Rx alpha lip_C
       lip_C_old).

(** A network as the constructor builds it, in which every parameter entry
    of layer [i] is [i]: the five layers differ. *)
Definition varied_layer (i : nat) : Block.t :=
  Block.init 2 1 1 1 (99 / 100) (1 / 1000000000000) (1 / 2) (1 / 10)
    (fun _ _ => INR i).
Definition varied_net : myModel.t :=
  myModel.init 2 1 1 5 1 (99 / 100) (1 / 1000000000000) (1 / 2) (1 / 10)
    (fun i _ _ => INR i).

(** * Properties *)

(** ** Tensors and loops *)

Lemma zip_with_inertia_same (b : R) (l : list R) :
  zip_with Rplus l (map (Rmult b) (zip_with Rminus l l)) = l.
Proof.
  induction l as [|x l IH]; simpl; [reflexivity|].
  rewrite IH. f_equal. ring.
Qed.

(** Extrapolating an iterate against its own snapshot leaves it as it is. *)
Lemma t_inertia_same (b : R) (A : Tensor) :
  t_add A (t_scale b (t_sub A A)) = A.
Proof.
  destruct A as [sh vs]. unfold t_add, t_scale, t_sub; simpl.
  now rewrite zip_with_inertia_same.
Qed.

(** A loop whose body always goes on is the iteration of its body. *)
Lemma for_range_from_continue {St A : Type} (step : St -> St) :
  forall (n start : nat) (s : St),
    for_range_from (A := A) start n (fun _ s => Ok (Continue (step s))) s
    = Ok (Continue (Nat.iter n step s)).
Proof.
  induction n as [|n IH]; intros start s; simpl; [reflexivity|].
  rewrite IH. f_equal. f_equal.
  clear IH. induction n as [|n IHn]; simpl; [reflexivity|now rewrite IHn].
Qed.

(** Two bodies that agree on every pass give the same loop. *)
Lemma for_range_from_ext {St A : Type}
    (body body' : nat -> St -> result (flow St A)) :
  (forall i s, body i s = body' i s) ->
  forall n start s,
    for_range_from start n body s = for_range_from start n body' s.
Proof.
  intros Hext. induction n as [|n IH]; intros start s; simpl; [reflexivity|].
  rewrite Hext. destruct (body' start s) as [[s'|a]|e]; simpl; auto.
Qed.

(** ** W_iter *)

Section W_iter_facts.
Context `{Functions}.
Variables (Rx C : Tensor) (c_w beta_w : R).

Lemma update_unfold (W W_old : Tensor) :
  W_iter.update Rx W W_old C c_w beta_w
  = (spec_W_substep Rx C c_w beta_w W W_old, W).
Proof. reflexivity. Qed.

Lemma iter_update_spec (W : Tensor) (n : nat) :
  Nat.iter n (fun p => W_iter.update Rx (fst p) (snd p) C c_w beta_w) (W, W)
  = (spec_W_iterate Rx C c_w beta_w W n,
     spec_W_previous Rx C c_w beta_w W n).
Proof.
  induction n as [|n IH]; [reflexivity|].
  simpl Nat.iter. rewrite IH, update_unfold. simpl fst; simpl snd.
  destruct n; reflexivity.
Qed.

Lemma forward_loop (self : W_iter.t) (W : Tensor) :
  W_iter.forward self Rx W C c_w beta_w
  = Ok (fst (Nat.iter (W_iter.N_updates_W self)
               (fun p => W_iter.update Rx (fst p) (snd p) C c_w beta_w)
               (W, W))).
Proof.
  unfold W_iter.forward, for_range, clone.
  rewrite (for_range_from_ext _
             (fun _ p => Ok (Continue
                (W_iter.update Rx (fst p) (snd p) C c_w beta_w)))).
  - rewrite for_range_from_continue. simpl bind.
    now destruct (Nat.iter _ _ _).
  - intros _ [Wk Wo]. reflexivity.
Qed.

(** C4 (amended).  [W_iter.forward] performs exactly [N_updates_W]
    sub-steps with [C] fixed and always returns: its result is the
    [N_updates_W]-th iterate of the recurrence in which each sub-step
    applies [prox_f] to the gradient step taken from the extrapolation of
    the entering iterate against [W_old], the iterate that entered the
    sub-step before.  The loop keeps that iterate as its snapshot: after
    [k] sub-steps its state is the pair of iterate [k] and iterate
    [k - 1], and the snapshot after [k + 1] sub-steps is the iterate the
    loop held after [k].  The first two sub-steps both have the input [W]
    as [W_old]: the first inertial term vanishes, and the second sub-step
    compares its iterate with the input of the block; from the third
    sub-step on [W_old] is an output of an earlier sub-step. *)
Theorem W_iter_forward_iterates (self : W_iter.t) (W : Tensor) :
  W_iter.forward self Rx W C c_w beta_w
  = Ok (spec_W_iterate Rx C c_w beta_w W (W_iter.N_updates_W self))
  /\ (forall k,
        Nat.iter k (fun p => W_iter.update Rx (fst p) (snd p) C c_w beta_w)
          (W, clone W)
        = (spec_W_iterate Rx C c_w beta_w W k,
           spec_W_previous Rx C c_w beta_w W k))
  /\ W_iter.inertial_step beta_w W (clone W) = W
  /\ spec_W_iterate Rx C c_w beta_w W 1
     = prox_f (t_sub W (t_scale c_w (grad_H_W W C Rx))) c_w
  /\ snd (Nat.iter 1
            (fun p => W_iter.update Rx (fst p) (snd p) C c_w beta_w)
            (W, clone W))
     = W
  /\ spec_W_iterate Rx C c_w beta_w W 2
     = spec_W_substep Rx C c_w beta_w (spec_W_iterate Rx C c_w beta_w W 1) W
  /\ (forall k,
        snd (Nat.iter (S k)
               (fun p => W_iter.update Rx (fst p) (snd p) C c_w beta_w)
               (W, clone W))
        = fst (Nat.iter k
                 (fun p => W_iter.update Rx (fst p) (snd p) C c_w beta_w)
                 (W, clone W))).
Proof.
  split; [|split; [|split; [|split; [|split; [|split]]]]].
  - rewrite forward_loop, iter_update_spec. reflexivity.
  - intros k. apply iter_update_spec.
  - apply t_inertia_same.
  - simpl. unfold spec_W_substep. now rewrite t_inertia_same.
  - reflexivity.
  - reflexivity.
  - intros k. reflexivity.
Qed.

End W_iter_facts.

Lemma W_iter_forward_eq `{Functions} (self : W_iter.t)
    (Rx W C : Tensor) (c_w beta_w : R) :
  W_iter.forward self Rx W C c_w beta_w
  = Ok (spec_W_iterate Rx C c_w beta_w W (W_iter.N_updates_W self)).
Proof. rewrite forward_loop, iter_update_spec. reflexivity. Qed.

(** ** C_iter *)

Section C_iter_facts.
Context `{Functions}.
Variables (Rx C W_updated : Tensor) (c_c beta_c alpha eps : R).

Lemma C_update_on_snapshot :
  C_iter.update Rx C (clone C) W_updated c_c beta_c alpha eps
  = (spec_C_plain_step Rx C W_updated c_c alpha eps, C).
Proof.
  unfold C_iter.update, C_iter.inertial_step, C_iter.gradient_step,
    C_iter.prox_step, spec_C_plain_step, clone.
  now rewrite t_inertia_same.
Qed.

Lemma C_iter_forward_update (self : C_iter.t) :
  C_iter.forward self Rx C W_updated c_c beta_c alpha eps
  = Ok (match C_iter.N_updates_C self with
        | O => None
        | S _ =>
            Some (C_iter.update Rx C (clone C) W_updated c_c beta_c alpha eps)
        end).
Proof.
  unfold C_iter.forward. destruct (C_iter.N_updates_C self); reflexivity.
Qed.

Lemma C_iter_forward_cases (self : C_iter.t) :
  C_iter.forward self Rx C W_updated c_c beta_c alpha eps
  = Ok (match C_iter.N_updates_C self with
        | O => None
        | S _ => Some (spec_C_plain_step Rx C W_updated c_c alpha eps, C)
        end).
Proof.
  rewrite C_iter_forward_update.
  destruct (C_iter.N_updates_C self); [reflexivity|].
  now rewrite C_update_on_snapshot.
Qed.

(** C3.  With a configured count of at least one, [C_iter.forward] performs
    one sub-step and returns from inside its loop: the result is the pair
    of [prox_g] applied to the gradient step with [grad_H_C_reg] taken
    from the inertial extrapolation of [C], and of the clone of the input
    [C].  It is the result of a [C_iter] configured with one update,
    whatever the configured count. *)
Theorem C_iter_forward_single_substep (self : C_iter.t) :
  (1 <= C_iter.N_updates_C self)%nat ->
  C_iter.forward self Rx C W_updated c_c beta_c alpha eps
  = Ok (Some
          (let C_inertial :=
             t_add C (t_scale beta_c (t_sub C (clone C))) in
           prox_g
             (t_sub C_inertial
                (t_scale c_c
                   (grad_H_C_reg W_updated C_inertial Rx alpha)))
             c_c eps,
           clone C))
  /\ C_iter.forward self Rx C W_updated c_c beta_c alpha eps
     = Ok (Some
             (C_iter.prox_step c_c
                (C_iter.gradient_step Rx c_c
                   (C_iter.inertial_step beta_c C (clone C)) W_updated alpha)
                eps,
              clone C))
  /\ C_iter.forward self Rx C W_updated c_c beta_c alpha eps
     = C_iter.forward (C_iter.mk 1) Rx C W_updated c_c beta_c alpha eps.
Proof.
  intros HN. rewrite !C_iter_forward_update.
  destruct (C_iter.N_updates_C self) as [|n]; [lia|].
  split; [|split]; reflexivity.
Qed.

End C_iter_facts.

(** ** Block *)

Section Block_facts.
Context `{Functions} `{TorchNN}.

Lemma pow2_eqb_0 (K : nat) : Nat.eqb (K ^ 2) 0 = Nat.eqb K 0.
Proof. destruct K; [reflexivity|]. simpl. reflexivity. Qed.

(** The let-chain of [get_coefficients] computes the derivation of the
    specification; the call raises only on a shape that does not unpack
    into three dimensions or on [K = 0]. *)
Lemma get_coefficients_spec (self : Block.t) (Rx : Tensor) (alpha : R)
    (C C_old : Tensor) (K K' N : nat) :
  shape C = [K; K'; N] ->
  Block.get_coefficients self Rx alpha C C_old
  = if Nat.eqb K 0 then Raise ZeroDivisionError
    else
      let rho_Rx := spectral_norm_extracted Rx K N in
      Ok (spec_coefficients (Block.gamma_c self) (Block.gamma_w self)
            (Block.nu self) (Block.zeta self) K rho_Rx alpha
            (lipschitz C rho_Rx) (lipschitz C_old rho_Rx)).
Proof.
  intros Hshape. unfold Block.get_coefficients. rewrite Hshape.
  rewrite pow2_eqb_0. destruct (Nat.eqb K 0); [reflexivity|].
  unfold bind. cbv zeta.
  set (rho := spectral_norm_extracted Rx K N).
  assert (Hl : Rmax (Block.gamma_w self * alpha / (1 - Block.gamma_w self))
                 (rho * 2 * INR K
                  * (1 + sqrt (2 / (alpha * Block.gamma_c self))))
               = spec_l_sup (Block.gamma_c self) (Block.gamma_w self) K rho
                   alpha).
  { unfold spec_l_sup. f_equal. ring. }
  rewrite Hl.
  assert (HC0 : Rmin (Rmin (Block.gamma_c self ^ 2 / INR (K ^ 2))
                   (alpha * Block.gamma_w self
                    / ((1 + Block.zeta self) * (1 - Block.gamma_w self)
                       * spec_l_sup (Block.gamma_c self) (Block.gamma_w self)
                           K rho alpha)))
                  (rho / ((1 + Block.zeta self)
                          * spec_l_sup (Block.gamma_c self)
                              (Block.gamma_w self) K rho alpha))
                = spec_C0 (Block.gamma_c self) (Block.gamma_w self)
                    (Block.zeta self) K rho alpha).
  { unfold spec_C0, Rmin3. rewrite pow_INR. symmetry. apply Rmin_assoc. }
  rewrite HC0. reflexivity.
Qed.

(** C1.  On a [C] of three dimensions [K, _, N], [get_coefficients] either
    returns the four scalars of the specification's derivation, computed
    from [rho_Rx = spectral_norm_extracted(Rx, K, N)] and the Lipschitz
    bounds of [C] and [C_old], or [K] is 0 and the quotient
    [gamma_c**2 / K**2] raises; for [K >= 1] it returns. *)
Theorem get_coefficients_derivation (self : Block.t) (Rx : Tensor)
    (alpha : R) (C C_old : Tensor) (K K' N : nat) :
  shape C = [K; K'; N] ->
  let rho_Rx := spectral_norm_extracted Rx K N in
  let derived :=
    spec_coefficients (Block.gamma_c self) (Block.gamma_w self)
      (Block.nu self) (Block.zeta self) K rho_Rx alpha
      (lipschitz C rho_Rx) (lipschitz C_old rho_Rx) in
  match Block.get_coefficients self Rx alpha C C_old with
  | Ok r => r = derived /\ (1 <= K)%nat
  | Raise e => e = ZeroDivisionError /\ K = 0%nat
  end.
Proof.
  intros Hshape rho_Rx derived.
  rewrite (get_coefficients_spec _ _ _ _ _ _ _ _ Hshape).
  destruct K; simpl; split; try reflexivity; lia.
Qed.

End Block_facts.

(** ** Ranges of the derived coefficients *)

Section Coefficient_ranges.
Variables (gamma_c gamma_w nu zeta : R) (K : nat).
Variables (rho_Rx alpha lip_C lip_C_old : R).
Hypothesis Hgw : 0 < gamma_w < 1.
Hypothesis Hgc : 0 < gamma_c.
Hypothesis Hnu : 0 < nu < 1.
Hypothesis Hzeta : 0 < zeta.
Hypothesis HK : (1 <= K)%nat.
Hypothesis Hrho : 0 < rho_Rx.
Hypothesis Halpha : 0 < alpha.

Let l_sup := spec_l_sup gamma_c gamma_w K rho_Rx alpha.
Let C0 := spec_C0 gamma_c gamma_w zeta K rho_Rx alpha.
Let L_inf := spec_L_inf gamma_c gamma_w zeta K rho_Rx alpha.
Let L_w := spec_L_w gamma_c gamma_w zeta K rho_Rx alpha lip_C.
Let L_w_prev := spec_L_w_prev gamma_c gamma_w zeta K rho_Rx alpha lip_C_old.

















End Coefficient_ranges.

Section Block_coefficient_ranges.
Context `{Functions}.


End Block_coefficient_ranges.

(** The coefficients of [half_block] at [alpha = 2] on [demo_C], with
    [steep_C_old] as the previous iterate. *)
Lemma half_block_l_sup : spec_l_sup 1 (1 / 2) 1 1 2 = 4.
Proof.
  unfold spec_l_sup. simpl INR.
  replace (2 / (2 * 1)) with 1 by field. rewrite sqrt_1.
  replace (1 / 2 * 2 / (1 - 1 / 2)) with 2 by field.
  replace (1 * (2 * 1) * (1 + 1)) with 4 by ring.
  apply Rmax_right. lra.
Qed.

Lemma half_block_C0 : spec_C0 1 (1 / 2) 1 1 1 2 = 1 / 8.
Proof.
  unfold spec_C0, Rmin3. rewrite half_block_l_sup. simpl INR.
  replace (1 ^ 2 / 1 ^ 2) with 1 by field.
  replace (2 * (1 / 2) / ((1 + 1) * (1 - 1 / 2) * 4)) with (1 / 4) by field.
  replace (1 / ((1 + 1) * 4)) with (1 / 8) by field.
  rewrite (Rmin_right (1 / 4) (1 / 8)) by lra.
  apply Rmin_right. lra.
Qed.

Lemma half_block_L_inf : spec_L_inf 1 (1 / 2) 1 1 1 2 = 1.
Proof.
  unfold spec_L_inf. rewrite half_block_C0, half_block_l_sup. field.
Qed.



(** ** Block.forward *)

Section Block_forward_facts.
Context `{Functions} `{TorchNN}.

(** The body of [Block.forward] with its two loops resolved. *)
Lemma Block_forward_steps (self : Block.t) (Rx W C C_old : Tensor) :
  Block.forward self Rx W C C_old
  = (alpha <- FCNN_alpha.forward (Block.NN_alpha self) W C ;;
     '(c_w, beta_w, c_c, beta_c) <-
       Block.get_coefficients self Rx alpha C C_old ;;
     let W_updated :=
       spec_W_iterate Rx C c_w beta_w W
         (W_iter.N_updates_W (Block.W_iter self)) in
     match C_iter.N_updates_C (Block.C_iter self) with
     | O => Raise TypeError
     | S _ =>
         Ok (W_updated,
             spec_C_plain_step Rx C W_updated c_c alpha (Block.eps self),
             C)
     end).
Proof.
  unfold Block.forward.
  destruct (FCNN_alpha.forward (Block.NN_alpha self) W C) as [alpha|e];
    [|reflexivity].
  simpl bind.
  destruct (Block.get_coefficients self Rx alpha C C_old)
    as [[[[c_w beta_w] c_c] beta_c]|e]; [|reflexivity].
  simpl bind. rewrite W_iter_forward_eq. simpl bind.
  rewrite C_iter_forward_cases. simpl bind.
  destruct (C_iter.N_updates_C (Block.C_iter self)); reflexivity.
Qed.

(** When a block returns, the [C_old] it hands back is its own input [C]. *)
Lemma Block_forward_C_old (self : Block.t) (Rx W C C_old : Tensor) :
  match Block.forward self Rx W C C_old with
  | Ok (_, _, C_old') => C_old' = C
  | Raise _ => True
  end.
Proof.
  rewrite Block_forward_steps.
  destruct (FCNN_alpha.forward (Block.NN_alpha self) W C) as [alpha|e];
    [|exact I].
  simpl bind.
  destruct (Block.get_coefficients self Rx alpha C C_old)
    as [[[[c_w beta_w] c_c] beta_c]|e]; [|exact I].
  simpl bind.
  destruct (C_iter.N_updates_C (Block.C_iter self)); [exact I|reflexivity].
Qed.

(** C9.  In [C_iter.forward] the extrapolation is taken against a snapshot
    of the very [C] it extrapolates, so it is the identity: the sub-step is
    a plain proximal-gradient step, the result of [C_iter.forward] is the
    same for any two values of [beta_c], and the [C_old] a block returns is
    the [C] the block was called with, whatever [C_old] it was given. *)
Theorem C_iter_inertia_is_identity (self : C_iter.t)
    (Rx C W_updated : Tensor) (c_c beta_c beta_c' alpha eps : R)
    (b : Block.t) (W C_old : Tensor) :
  C_iter.inertial_step beta_c C (clone C) = C
  /\ C_iter.update Rx C (clone C) W_updated c_c beta_c alpha eps
     = (spec_C_plain_step Rx C W_updated c_c alpha eps, C)
  /\ C_iter.forward self Rx C W_updated c_c beta_c alpha eps
     = C_iter.forward self Rx C W_updated c_c beta_c' alpha eps
  /\ C_iter.forward self Rx C W_updated c_c beta_c alpha eps
     = Ok (match C_iter.N_updates_C self with
           | O => None
           | S _ => Some (spec_C_plain_step Rx C W_updated c_c alpha eps, C)
           end)
  /\ match Block.forward b Rx W C C_old with
     | Ok (_, _, C_old') => C_old' = C
     | Raise _ => True
     end.
Proof.
  split; [|split; [|split; [|split]]].
  - apply t_inertia_same.
  - apply C_update_on_snapshot.
  - now rewrite !C_iter_forward_cases.
  - apply C_iter_forward_cases.
  - apply Block_forward_C_old.
Qed.

(** C10.  A block configured with [N_updates_C = 0] never returns: its
    [C_iter.forward] runs no iteration and yields [None], and
    [Block.forward], once the predictor and the coefficients are computed,
    raises [TypeError] on unpacking it.  Hence a block call that returns
    has [N_updates_C >= 1]. *)
Theorem Block_forward_needs_C_update (b : Block.t) (Rx W C C_old : Tensor) :
  (C_iter.N_updates_C (Block.C_iter b) = 0%nat ->
     (forall Rx' C' W' c_c beta_c alpha eps,
        C_iter.forward (Block.C_iter b) Rx' C' W' c_c beta_c alpha eps
        = Ok None)
     /\ Block.forward b Rx W C C_old
        = (alpha <- FCNN_alpha.forward (Block.NN_alpha b) W C ;;
           _ <- Block.get_coefficients b Rx alpha C C_old ;;
           Raise TypeError))
  /\ (forall r, Block.forward b Rx W C C_old = Ok r ->
                (1 <= C_iter.N_updates_C (Block.C_iter b))%nat).
Proof.
  split.
  - intros HN. split.
    + intros. rewrite C_iter_forward_cases, HN. reflexivity.
    + rewrite Block_forward_steps, HN.
      destruct (FCNN_alpha.forward (Block.NN_alpha b) W C) as [alpha|e];
        [|reflexivity].
      simpl bind.
      now destruct (Block.get_coefficients b Rx alpha C C_old)
        as [[[[c_w beta_w] c_c] beta_c]|e].
  - intros r Hr. rewrite Block_forward_steps in Hr.
    destruct (FCNN_alpha.forward (Block.NN_alpha b) W C) as [alpha|e];
      [|discriminate].
    simpl bind in Hr.
    destruct (Block.get_coefficients b Rx alpha C C_old)
      as [[[[c_w beta_w] c_c] beta_c]|e]; [|discriminate].
    simpl bind in Hr.
    destruct (C_iter.N_updates_C (Block.C_iter b)); [discriminate|lia].
Qed.

End Block_forward_facts.

(** ** ModuleList *)

Lemma ModuleList_getitem_nat {A : Type} (l : list A) (i : nat) (x : A) :
  nth_error l i = Some x -> ModuleList_getitem l (Z.of_nat i) = Ok x.
Proof.
  intros Hnth. unfold ModuleList_getitem.
  assert (Hlt : (i < List.length l)%nat).
  { apply nth_error_Some. congruence. }
  replace ((- Z.of_nat (List.length l) <=? Z.of_nat i)%Z) with true
    by (symmetry; apply Z.leb_le; lia).
  replace ((Z.of_nat i <? Z.of_nat (List.length l))%Z) with true
    by (symmetry; apply Z.ltb_lt; lia).
  replace ((Z.of_nat i <? 0)%Z) with false
    by (symmetry; apply Z.ltb_ge; lia).
  simpl. now rewrite Nat2Z.id, Hnth.
Qed.

Lemma ModuleList_getitem_out_of_range {A : Type} (l : list A) (idx : Z) :
  (idx < - Z.of_nat (List.length l) \/ Z.of_nat (List.length l) <= idx)%Z ->
  ModuleList_getitem l idx = Raise IndexError.
Proof.
  intros Hout. unfold ModuleList_getitem.
  destruct (Z.leb_spec (- Z.of_nat (List.length l)) idx);
    destruct (Z.ltb_spec idx (Z.of_nat (List.length l)));
    simpl; try reflexivity; lia.
Qed.

(** ** myModel.forward *)

Section myModel_forward_facts.
Context `{Functions} `{TorchNN}.

Lemma forward_single_layer_mode (self : myModel.t) (Rx W C : Tensor)
    (mode : string) (layer : Z) :
  mode = "first_layer"%string \/ mode = "greedy"%string ->
  myModel.forward self Rx W C mode layer
  = (b <- ModuleList_getitem (myModel.Layers self) layer ;;
     spec_single_block b Rx W C).
Proof.
  intros [-> | ->]; unfold myModel.forward, spec_single_block; simpl;
    (destruct (ModuleList_getitem (myModel.Layers self) layer) as [b|e];
     [|reflexivity]); simpl;
    destruct (Block.forward b Rx W C (clone C)) as [[[W' C'] Co]|e];
    reflexivity.
Qed.

(** C5 (amended).  In mode 'first_layer' or 'greedy' the call runs one
    block, the one the [layer] argument itself indexes in [Layers] (0-based,
    so the default 0 is the first block), on a fresh snapshot
    [C_old = C], and returns the [(W, C)] of that block; an index from
    [len(Layers)] on raises [IndexError]. *)
Theorem forward_runs_indexed_layer (self : myModel.t) (Rx W C : Tensor)
    (mode : string) (layer : Z) :
  mode = "first_layer"%string \/ mode = "greedy"%string ->
  myModel.forward self Rx W C mode layer
  = (b <- ModuleList_getitem (myModel.Layers self) layer ;;
     '(W', C', _) <- Block.forward b Rx W C (clone C) ;;
     Ok (W', C'))
  /\ (forall (i : nat) (b : Block.t),
        nth_error (myModel.Layers self) i = Some b ->
        myModel.forward self Rx W C mode (Z.of_nat i)
        = spec_single_block b Rx W C)
  /\ ((Z.of_nat (List.length (myModel.Layers self)) <= layer)%Z ->
      myModel.forward self Rx W C mode layer = Raise IndexError).
Proof.
  intros Hmode. split; [|split].
  - now apply forward_single_layer_mode.
  - intros i b Hnth. rewrite forward_single_layer_mode by assumption.
    now rewrite (ModuleList_getitem_nat _ _ _ Hnth).
  - intros Hout. rewrite forward_single_layer_mode by assumption.
    rewrite ModuleList_getitem_out_of_range by (right; assumption).
    reflexivity.
Qed.

Lemma string_eqb_false (s s' : string) : s <> s' -> String.eqb s s' = false.
Proof. intros Hne. now apply String.eqb_neq. Qed.

(** C7 (amended).  A mode other than 'first_layer', 'greedy' and 'test'
    raises nothing: the call runs no block and returns its input [(W, C)],
    whatever the layer index.  In the two single-layer modes an index
    outside [-len(Layers), len(Layers)) raises [IndexError]; in mode 'test'
    the layer index is not looked at. *)
Theorem forward_mode_layer_misuse (self : myModel.t) (Rx W C : Tensor)
    (mode : string) (layer : Z) :
  (mode <> "first_layer"%string -> mode <> "greedy"%string ->
   mode <> "test"%string ->
   myModel.forward self Rx W C mode layer = Ok (W, C))
  /\ (mode = "first_layer"%string \/ mode = "greedy"%string ->
      (layer < - Z.of_nat (List.length (myModel.Layers self))
       \/ Z.of_nat (List.length (myModel.Layers self)) <= layer)%Z ->
      myModel.forward self Rx W C mode layer = Raise IndexError)
  /\ (forall layer' : Z,
        myModel.forward self Rx W C "test" layer
        = myModel.forward self Rx W C "test" layer').
Proof.
  split; [|split].
  - intros H1 H2 H3. unfold myModel.forward.
    now rewrite !string_eqb_false by assumption.
  - intros Hmode Hout. rewrite forward_single_layer_mode by assumption.
    now rewrite ModuleList_getitem_out_of_range by assumption.
  - reflexivity.
Qed.

(** The loop of mode 'test' over the layers still to run. *)
Lemma test_loop_blocks (self : myModel.t) (Rx : Tensor) :
  forall (post pre : list Block.t) (W C : Tensor) (C_old : option Tensor),
    myModel.Layers self = pre ++ post ->
    (r <- for_range_from (A := Tensor * Tensor) (List.length pre)
            (List.length post)
            (fun i '(W, C, _) =>
               let C_old := clone C in
               b <- ModuleList_getitem (myModel.Layers self) (Z.of_nat i) ;;
               '(W, C, C_old) <- Block.forward b Rx W C C_old ;;
               Ok (Continue (W, C, Some C_old)))
            (W, C, C_old) ;;
     match r with
     | Continue (W, C, _) => Ok (W, C)
     | Return v => Ok v
     end)
    = spec_apply_blocks post Rx W C.
Proof.
  induction post as [|b post IH]; intros pre W C C_old Hl; [reflexivity|].
  simpl for_range_from. simpl spec_apply_blocks. unfold spec_single_block.
  rewrite (ModuleList_getitem_nat _ _ b)
    by (rewrite Hl, nth_error_app2, Nat.sub_diag by lia; reflexivity).
  simpl bind.
  destruct (Block.forward b Rx W C (clone C)) as [[[W' C'] Co]|e];
    [|reflexivity].
  simpl bind.
  specialize (IH (pre ++ [b]) W' C' (Some Co)).
  rewrite length_app, Nat.add_1_r in IH. apply IH.
  now rewrite <- app_assoc.
Qed.

Lemma chain_calls_blocks (self : myModel.t) (Rx : Tensor) :
  forall (post pre : list Block.t) (W C : Tensor),
    myModel.Layers self = pre ++ post ->
    spec_chain_calls self Rx (seq (List.length pre) (List.length post)) W C
    = spec_apply_blocks post Rx W C.
Proof.
  induction post as [|b post IH]; intros pre W C Hl; [reflexivity|].
  simpl. rewrite forward_single_layer_mode by (left; reflexivity).
  rewrite (ModuleList_getitem_nat _ _ b)
    by (rewrite Hl, nth_error_app2, Nat.sub_diag by lia; reflexivity).
  simpl bind.
  destruct (spec_single_block b Rx W C) as [[W' C']|e]; [|reflexivity].
  simpl bind.
  specialize (IH (pre ++ [b]) W' C').
  rewrite length_app, Nat.add_1_r in IH. apply IH.
  now rewrite <- app_assoc.
Qed.

(** C8.  In mode 'test' the call returns what applying the blocks
    [0 .. L-1] once each, in index order, returns, each block being given
    a fresh clone of the current [C] as [C_old] and the [C_old] it hands
    back being dropped; this is also what chaining [L] single-layer calls
    of the network by hand, for the indices [0 .. L-1], returns. *)
Theorem forward_test_is_chain (self : myModel.t) (Rx W C : Tensor)
    (layer : Z) :
  myModel.forward self Rx W C "test" layer
  = spec_apply_blocks (myModel.Layers self) Rx W C
  /\ myModel.forward self Rx W C "test" layer
     = spec_chain_calls self Rx
         (seq 0 (List.length (myModel.Layers self))) W C.
Proof.
  assert (Hloop : myModel.forward self Rx W C "test" layer
                  = spec_apply_blocks (myModel.Layers self) Rx W C).
  { unfold myModel.forward, for_range. simpl orb. cbv iota.
    apply (test_loop_blocks self Rx (myModel.Layers self) []). reflexivity. }
  split; [exact Hloop|].
  rewrite Hloop. symmetry.
  apply (chain_calls_blocks self Rx (myModel.Layers self) []). reflexivity.
Qed.

End myModel_forward_facts.

(** ** myModel.GradFalse *)

Lemma shape_eqb_true (A B : Tensor) : shape A = shape B -> shape_eqb A B = true.
Proof.
  intros Heq. unfold shape_eqb.
  destruct (list_eq_dec Nat.eq_dec (shape A) (shape B)); congruence.
Qed.

Lemma load_state_dict_copy (target source : Block.t) :
  map shape (param_values source) = map shape (param_values target) ->
  Block.load_state_dict target (Block.state_dict source)
  = Ok (copy_values target source).
Proof.
  unfold param_values, Block.parameters. simpl map.
  intros Hshapes. injection Hshapes as H1 H2 H3 H4 H5 H6.
  unfold Block.load_state_dict, Block.state_dict, Block.parameters,
    Block.load_param.
  simpl. rewrite !shape_eqb_true by assumption. reflexivity.
Qed.

Lemma ModuleList_store_app {A : Type} (pre post : list A) (x y : A) :
  ModuleList_store (pre ++ x :: post) (List.length pre) y = pre ++ y :: post.
Proof. induction pre as [|a pre IH]; simpl; [reflexivity|now rewrite IH]. Qed.

Lemma ModuleList_store_length {A : Type} (l : list A) (i : nat) (x : A) :
  List.length (ModuleList_store l i x) = List.length l.
Proof.
  revert i. induction l as [|a l IH]; intros [|i]; simpl; auto.
Qed.

Lemma nth_error_ModuleList_store {A : Type} (l : list A) (k i : nat) (x : A) :
  (k < List.length l)%nat ->
  nth_error (ModuleList_store l k x) i
  = if Nat.eqb i k then Some x else nth_error l i.
Proof.
  revert k i. induction l as [|a l IH]; intros k i Hk; simpl in Hk; [lia|].
  destruct k as [|k], i as [|i]; simpl; try reflexivity.
  apply IH. lia.
Qed.

Lemma freeze_prefix_length (n : nat) (l : list Block.t) :
  List.length (freeze_prefix n l) = List.length l.
Proof.
  unfold freeze_prefix.
  rewrite length_app, length_map, <- length_app, firstn_skipn. reflexivity.
Qed.

Lemma nth_error_freeze_prefix (n : nat) (l : list Block.t) (i : nat) :
  nth_error (freeze_prefix n l) i
  = if Nat.ltb i n then option_map freeze_block (nth_error l i)
    else nth_error l i.
Proof.
  unfold freeze_prefix. revert l i.
  induction n as [|n IH]; intros l i; [reflexivity|].
  destruct l as [|b l].
  { destruct i; simpl; [reflexivity|].
    match goal with |- context [if ?c then _ else _] => now destruct c end. }
  destruct i as [|i]; [reflexivity|].
  simpl. rewrite IH. reflexivity.
Qed.

(** The freezing loop, with the layers already handled in front. *)
Lemma freeze_loop :
  forall (n : nat) (pre post : list Block.t),
    (n <= List.length post)%nat ->
    for_range_from (A := unit) (List.length pre) n
      (fun i layers =>
         b <- ModuleList_getitem layers (Z.of_nat i) ;;
         Ok (Continue
               (ModuleList_store layers i
                  (Block.map_parameters myModel.freeze_parameter
                     (Block.eval b)))))
      (pre ++ post)
    = Ok (Continue (pre ++ freeze_prefix n post)).
Proof.
  induction n as [|n IH]; intros pre post Hn; [reflexivity|].
  destruct post as [|b post]; simpl in Hn; [lia|].
  simpl for_range_from.
  rewrite (ModuleList_getitem_nat _ _ b)
    by (rewrite nth_error_app2, Nat.sub_diag by lia; reflexivity).
  simpl bind. rewrite ModuleList_store_app.
  change (Block.map_parameters myModel.freeze_parameter (Block.eval b))
    with (freeze_block b).
  specialize (IH (pre ++ [freeze_block b]) post).
  rewrite length_app, Nat.add_1_r, <- app_assoc in IH.
  simpl app in IH. rewrite IH by lia.
  unfold freeze_prefix. simpl. now rewrite <- app_assoc.
Qed.

Lemma freeze_loop_all (n : nat) (layers : list Block.t) :
  (n <= List.length layers)%nat ->
  for_range_from (A := unit) 0 n
    (fun i layers =>
       b <- ModuleList_getitem layers (Z.of_nat i) ;;
       Ok (Continue
             (ModuleList_store layers i
                (Block.map_parameters myModel.freeze_parameter
                   (Block.eval b)))))
    layers
  = Ok (Continue (freeze_prefix n layers)).
Proof. intros Hn. exact (freeze_loop n [] layers Hn). Qed.


Lemma freeze_block_frozen (b : Block.t) : frozen (freeze_block b).
Proof.
  split; [reflexivity|].
  unfold freeze_block, Block.parameters. simpl.
  repeat constructor.
Qed.



(** Past the last layer the copy of mode 'greedy' has no target: the
    lookup of [Layers[block]] raises before any layer is frozen. *)
Lemma GradFalse_greedy_out_of_range (self : myModel.t) (block : Z) :
  (1 <= block)%Z ->
  (Z.of_nat (List.length (myModel.Layers self)) <= block)%Z ->
  myModel.GradFalse self block "greedy" = Raise IndexError.
Proof.
  intros Hpos Hout. unfold myModel.GradFalse.
  replace (1 <=? block)%Z with true by (symmetry; apply Z.leb_le; lia).
  simpl String.eqb. cbv iota.
  rewrite ModuleList_getitem_out_of_range by (right; assumption).
  reflexivity.
Qed.


Lemma GradFalse_plain_in_range (self : myModel.t) (block : Z)
    (mode : string) :
  mode <> "greedy"%string ->
  (1 <= block <= Z.of_nat (List.length (myModel.Layers self)))%Z ->
  myModel.GradFalse self block mode
  = Ok (myModel.mk (freeze_prefix (Z.to_nat block) (myModel.Layers self))).
Proof.
  intros Hmode Hb. unfold myModel.GradFalse, for_range.
  replace (1 <=? block)%Z with true by (symmetry; apply Z.leb_le; lia).
  rewrite (proj2 (String.eqb_neq mode "greedy") Hmode).
  simpl bind. rewrite freeze_loop_all by lia. reflexivity.
Qed.


(** * The theorems on the demo network *)

(** The demo block returns on the demo input, and hands back its input
    [C] as [C_old]. *)
Lemma demo_block_forward_returns :
  exists W' C' : Tensor,
    Block.forward (H := demo_functions) (H0 := reference_nn)
      (demo_block 2 1) demo_Rx demo_W demo_C demo_C
    = Ok (W', C', demo_C).
Proof. do 2 eexists. reflexivity. Qed.

(** C1 on the demo block: [K = 1], [alpha = 2], [C_old = C]. *)
Lemma get_coefficients_derivation_demo :
  shape demo_C = [1; 1; 1]%nat
  /\ match Block.get_coefficients (H := demo_functions) (demo_block 1 1)
             demo_Rx 2 demo_C demo_C with
     | Ok r =>
         r = spec_coefficients 1 (99 / 100) (1 / 2) (1 / 10) 1 1 2 1 1
         /\ (1 <= 1)%nat
     | Raise e => e = ZeroDivisionError /\ 1%nat = 0%nat
     end.
Proof.
  split; [reflexivity|].
  exact (get_coefficients_derivation (H := demo_functions) (demo_block 1 1)
           demo_Rx 2 demo_C demo_C 1 1 1 eq_refl).
Defined.

Lemma sqrt_thirty_second : 1 / 8 <= sqrt (1 / 32) <= 1.
Proof.
  split.
  - replace (1 / 8) with (sqrt (1 / 8 * (1 / 8)))
      by (rewrite sqrt_square; lra).
    apply sqrt_le_1_alt. lra.
  - rewrite <- sqrt_1 at 2. apply sqrt_le_1_alt. lra.
Qed.


(** The input at which [beta_w] reaches 2 is in range as well: its
    derivation stays between 1/32 and 512. *)
Lemma steep_C_old_in_range :
  derivation_in_range 1 (1 / 2) (1 / 2) 1 1 1 2 1 512.
Proof.
  pose proof sqrt_thirty_second as Hsqrt.
  unfold derivation_in_range, derivation_values.
  unfold spec_L_w_prev, spec_L_w.
  rewrite half_block_l_sup, half_block_C0, half_block_L_inf.
  rewrite (Rmax_left 1 1), (Rmax_right 1 512) by lra. simpl INR.
  replace (2 / (2 * 1)) with 1 by field. rewrite sqrt_1.
  replace (1 / 8 * (1 / 2) * (1 - 1 / 2) * 512 / 1) with (4 * 4) by field.
  rewrite sqrt_square by lra.
  replace (1 / 8 * (1 / 2) * (1 - 1 / 2)) with (1 / 32) by field.
  repeat constructor; unfold float32_safe; lra.
Qed.


(** C4, as stated, fails in its clause on the original input.  With the
    demo primitives, [c_w = 1/2] and [beta_w = 1], the first sub-step
    takes the input [1/2] to [1/4] and leaves the input as the snapshot;
    the second sub-step extrapolates [1/4] against that input, to
    [1/4 + (1/4 - 1/2) = 0], and returns 0.  Compared with the iterate
    [1/4] itself, it would return [1/8]. *)
Lemma W_iter_second_substep_compares_with_input :
  Nat.iter 1
    (fun p => W_iter.update (H := demo_functions) demo_Rx (fst p) (snd p)
                demo_C (1 / 2) 1)
    (demo_W, clone demo_W)
  = (mkTensor [1; 1; 1]%nat [1 / 4], demo_W)
  /\ W_iter.forward (H := demo_functions) (W_iter.mk 2) demo_Rx demo_W demo_C
       (1 / 2) 1
     = Ok (mkTensor [1; 1; 1]%nat [0])
  /\ spec_W_substep (H := demo_functions) demo_Rx demo_C (1 / 2) 1
       (mkTensor [1; 1; 1]%nat [1 / 4]) (mkTensor [1; 1; 1]%nat [1 / 4])
     = mkTensor [1; 1; 1]%nat [1 / 8]
  /\ mkTensor [1; 1; 1]%nat [0] <> mkTensor [1; 1; 1]%nat [1 / 8].
Proof.
  split; [|split; [|split]].
  - simpl. unfold W_iter.update, W_iter.prox_step, W_iter.gradient_step,
      W_iter.inertial_step, clone, demo_W, t_add, t_sub, t_scale. simpl.
    do 3 f_equal. lra.
  - rewrite W_iter_forward_eq. simpl.
    unfold spec_W_substep, demo_W, t_add, t_sub, t_scale. simpl.
    do 3 f_equal. lra.
  - unfold spec_W_substep, t_add, t_sub, t_scale. simpl.
    do 2 f_equal. lra.
  - intros Heq. injection Heq as Heq. lra.
Qed.

(** C3 with three configured updates: the result is that of one update. *)
Lemma C_iter_forward_single_substep_demo :
  (1 <= C_iter.N_updates_C (C_iter.mk 3))%nat
  /\ C_iter.forward (H := demo_functions) (C_iter.mk 3) demo_Rx demo_C demo_W
       (1 / 2) (1 / 4) 2 0
     = C_iter.forward (H := demo_functions) (C_iter.mk 1) demo_Rx demo_C
         demo_W (1 / 2) (1 / 4) 2 0.
Proof.
  split; [simpl; lia|].
  apply (C_iter_forward_single_substep (H := demo_functions) demo_Rx demo_C
           demo_W (1 / 2) (1 / 4) 2 0 (C_iter.mk 3)).
  simpl; lia.
Defined.

(** C10 on a demo block without [C] updates, and on one that returns. *)
Lemma Block_forward_needs_C_update_demo :
  C_iter.N_updates_C (Block.C_iter (demo_block 1 0)) = 0%nat
  /\ C_iter.forward (H := demo_functions) (Block.C_iter (demo_block 1 0))
       demo_Rx demo_C demo_W (1 / 2) (1 / 4) 2 0
     = Ok None
  /\ (1 <= C_iter.N_updates_C (Block.C_iter (demo_block 2 1)))%nat.
Proof.
  split; [reflexivity|]. split.
  - apply (proj1 (Block_forward_needs_C_update (H := demo_functions)
                    (H0 := reference_nn) (demo_block 1 0)
                    demo_Rx demo_W demo_C demo_C)).
    reflexivity.
  - destruct demo_block_forward_returns as (W' & C' & Hret).
    exact (proj2 (Block_forward_needs_C_update (H := demo_functions)
                    (H0 := reference_nn) (demo_block 2 1)
                    demo_Rx demo_W demo_C demo_C) _ Hret).
Defined.

(** C5, as stated, fails: in a network of one layer the layer argument 1
    names, counting from one, the only layer, whose block returns on this
    input; the call looks up [Layers[1]] and raises [IndexError]. *)
Lemma forward_layer_one_of_one_layer_net :
  nth_error (myModel.Layers demo_net1) (Z.to_nat (1 - 1))
  = Some (demo_block 1 1)
  /\ (exists r : Tensor * Tensor,
        spec_single_block (H := demo_functions) (H0 := reference_nn)
          (demo_block 1 1) demo_Rx demo_W demo_C
        = Ok r)
  /\ myModel.forward (H := demo_functions) (H0 := reference_nn) demo_net1
       demo_Rx demo_W demo_C "greedy" 1
     = Raise IndexError.
Proof.
  split; [reflexivity|]. split; [|reflexivity].
  eexists. reflexivity.
Qed.

(** C5 (amended) on the five-layer network: the layer argument 1 runs the
    block at position 1, the second block. *)
Lemma forward_runs_indexed_layer_demo :
  ("greedy"%string = "first_layer"%string \/ "greedy"%string = "greedy"%string)
  /\ nth_error (myModel.Layers demo_net5) 1 = Some (demo_block 2 1)
  /\ myModel.forward (H := demo_functions) (H0 := reference_nn) demo_net5
       demo_Rx demo_W demo_C "greedy" 1
     = spec_single_block (H := demo_functions) (H0 := reference_nn)
         (demo_block 2 1) demo_Rx demo_W demo_C.
Proof.
  split; [right; reflexivity|]. split; [reflexivity|].
  apply (proj1 (proj2 (forward_runs_indexed_layer (H := demo_functions)
                         (H0 := reference_nn) demo_net5 demo_Rx demo_W demo_C
                         "greedy" 1 (or_intror eq_refl)))
           1%nat (demo_block 2 1)).
  reflexivity.
Defined.

(** C7, as stated, fails: the mode 'train' is none of the three modes, and
    the call returns its input [(W, C)] instead of raising. *)
Lemma forward_unknown_mode_returns_input :
  "train"%string <> "first_layer"%string
  /\ "train"%string <> "greedy"%string
  /\ "train"%string <> "test"%string
  /\ myModel.forward (H := demo_functions) (H0 := reference_nn) demo_net5
       demo_Rx demo_W demo_C "train" 0
     = Ok (demo_W, demo_C).
Proof. repeat split; discriminate. Qed.

(** C7 (amended) on the five-layer network: an unknown mode returns the
    input, the index 5 raises in mode 'first_layer'. *)
Lemma forward_mode_layer_misuse_demo :
  myModel.forward (H := demo_functions) (H0 := reference_nn) demo_net5
    demo_Rx demo_W demo_C "validation" 7
  = Ok (demo_W, demo_C)
  /\ myModel.forward (H := demo_functions) (H0 := reference_nn) demo_net5
       demo_Rx demo_W demo_C "first_layer" 5
     = Raise IndexError.
Proof.
  split.
  - apply (proj1 (forward_mode_layer_misuse (H := demo_functions)
                    (H0 := reference_nn) demo_net5 demo_Rx demo_W demo_C
                    "validation" 7)); discriminate.
  - apply (proj1 (proj2 (forward_mode_layer_misuse (H := demo_functions)
                           (H0 := reference_nn) demo_net5 demo_Rx demo_W
                           demo_C "first_layer" 5))).
    + left; reflexivity.
    + right. simpl. lia.
Defined.

(** The five demo layers are built alike. *)
Lemma demo_net5_same_architecture : same_architecture demo_net5.
Proof.
  intros b b' Hb Hb'. simpl in Hb, Hb'.
  repeat match goal with
         | H : _ \/ _ |- _ => destruct H as [<- | H]
         | H : False |- _ => destruct H
         end; reflexivity.
Defined.


(** The layers 2 and 3 of [varied_net] have different parameter values. *)
Lemma varied_net_layers_differ :
  param_values (varied_layer 2) <> param_values (varied_layer 3).
Proof.
  intros Heq.
  apply (f_equal (fun l => match l with
                           | t :: _ => hd 0 (values t)
                           | [] => 0
                           end)) in Heq.
  simpl in Heq. lra.
Qed.



(** * Further properties of the code *)

(** ** W_iter *)

Lemma zip_with_length {A B C : Type} (f : A -> B -> C) (l : list A)
    (l' : list B) :
  List.length (zip_with f l l') = Nat.min (List.length l) (List.length l').
Proof.
  revert l'. induction l as [|a l IH]; intros [|b l']; simpl; auto.
Qed.

Lemma zip_with_zero_inertia (l l' : list R) :
  (List.length l <= List.length l')%nat ->
  zip_with Rplus l (map (Rmult 0) (zip_with Rminus l l')) = l.
Proof.
  revert l'. induction l as [|x l IH]; intros [|y l'] Hlen; simpl in *;
    try reflexivity; try lia.
  rewrite IH by lia. f_equal. ring.
Qed.

Lemma inertial_step_zero `{Functions} (W W_old : Tensor) :
  (List.length (values W) <= List.length (values W_old))%nat ->
  W_iter.inertial_step 0 W W_old = W.
Proof.
  intros Hlen. destruct W as [sh vs]. unfold W_iter.inertial_step, t_add,
    t_scale, t_sub; simpl in *.
  now rewrite zip_with_zero_inertia.
Qed.

Section W_iter_extras.
Context `{Functions}.
Variables (Rx C : Tensor) (c_w : R).

Lemma plain_step_entries (W : Tensor) :
  W_entries_kept ->
  List.length (values (spec_W_plain_step Rx C c_w W))
  = List.length (values W).
Proof.
  intros [Hprox Hgrad]. unfold spec_W_plain_step.
  rewrite Hprox. unfold t_sub, t_scale; simpl.
  rewrite zip_with_length, length_map, Hgrad. apply Nat.min_id.
Qed.

Lemma substep_without_inertia (W W_old : Tensor) :
  (List.length (values W) <= List.length (values W_old))%nat ->
  spec_W_substep Rx C c_w 0 W W_old = spec_W_plain_step Rx C c_w W.
Proof.
  intros Hlen. unfold spec_W_substep, spec_W_plain_step.
  pose proof (inertial_step_zero W W_old Hlen) as Hin.
  unfold W_iter.inertial_step in Hin. cbv zeta. now rewrite Hin.
Qed.

Lemma iterate_without_inertia (W : Tensor) :
  W_entries_kept ->
  forall n : nat,
    spec_W_iterate Rx C c_w 0 W n = Nat.iter n (spec_W_plain_step Rx C c_w) W
    /\ List.length (values (spec_W_iterate Rx C c_w 0 W n))
       = List.length (values W)
    /\ List.length (values (spec_W_previous Rx C c_w 0 W n))
       = List.length (values W).
Proof.
  intros Hkept. induction n as [|n (IHit & IHlen & IHprev)].
  - simpl. auto.
  - assert (Hstep : spec_W_iterate Rx C c_w 0 W (S n)
                    = spec_W_plain_step Rx C c_w
                        (spec_W_iterate Rx C c_w 0 W n)).
    { change (spec_W_iterate Rx C c_w 0 W (S n))
        with (spec_W_substep Rx C c_w 0 (spec_W_iterate Rx C c_w 0 W n)
                (spec_W_previous Rx C c_w 0 W n)).
      apply substep_without_inertia. lia. }
    split; [|split].
    + rewrite Hstep, IHit. reflexivity.
    + rewrite Hstep, plain_step_entries by assumption. exact IHlen.
    + exact IHlen.
Qed.

Lemma iter_plus {A : Type} (f : A -> A) (m n : nat) (x : A) :
  Nat.iter (m + n) f x = Nat.iter n f (Nat.iter m f x).
Proof.
  induction n as [|n IH]; [now rewrite Nat.add_0_r|].
  rewrite Nat.add_succ_r. simpl. now rewrite IH.
Qed.

Lemma keep_extent_entries : primitives_keep_extent -> W_entries_kept.
Proof.
  intros (Hf & Hg & _ & _). split; intros; [apply Hf|apply Hg].
Qed.

Lemma keep_extent_shapes : primitives_keep_extent -> prox_shapes_kept.
Proof.
  intros (Hf & _ & Hg & _). split; intros; [apply Hf|apply Hg].
Qed.

(** X1.  With [beta_w = 0], and primitives that keep the extent of their
    argument, [W_iter.forward] is the iteration of the plain
    proximal-gradient step, and [m + n] sub-steps in one call are [m]
    sub-steps followed by [n] sub-steps in a second call. *)
Theorem W_iter_forward_without_inertia (W : Tensor) (m n : nat) :
  primitives_keep_extent ->
  W_iter.forward (W_iter.mk n) Rx W C c_w 0
  = Ok (Nat.iter n (spec_W_plain_step Rx C c_w) W)
  /\ W_iter.forward (W_iter.mk (m + n)) Rx W C c_w 0
     = (W' <- W_iter.forward (W_iter.mk m) Rx W C c_w 0 ;;
        W_iter.forward (W_iter.mk n) Rx W' C c_w 0).
Proof.
  intros Hextent. pose proof (keep_extent_entries Hextent) as Hkept.
  assert (Hfwd : forall k V,
            W_iter.forward (W_iter.mk k) Rx V C c_w 0
            = Ok (Nat.iter k (spec_W_plain_step Rx C c_w) V)).
  { intros k V. rewrite W_iter_forward_eq. simpl W_iter.N_updates_W.
    now rewrite (proj1 (iterate_without_inertia V Hkept k)). }
  split; [apply Hfwd|].
  rewrite !Hfwd. simpl bind. rewrite Hfwd. now rewrite iter_plus.
Qed.

(** X2.  A fixed point of the plain proximal-gradient step is returned
    unchanged by [W_iter.forward], whatever the number of sub-steps and the
    inertial weight. *)
Theorem W_iter_forward_fixed_point (self : W_iter.t) (W : Tensor)
    (beta_w : R) :
  spec_W_plain_step Rx C c_w W = W ->
  W_iter.forward self Rx W C c_w beta_w = Ok W.
Proof.
  intros Hfix. rewrite W_iter_forward_eq. f_equal.
  assert (Hboth : forall n,
            spec_W_iterate Rx C c_w beta_w W n = W
            /\ spec_W_previous Rx C c_w beta_w W n = W).
  { induction n as [|n [IHit IHprev]]; [split; reflexivity|].
    split; [|exact IHit].
    change (spec_W_iterate Rx C c_w beta_w W (S n))
      with (spec_W_substep Rx C c_w beta_w
              (spec_W_iterate Rx C c_w beta_w W n)
              (spec_W_previous Rx C c_w beta_w W n)).
    rewrite IHit, IHprev. unfold spec_W_substep.
    rewrite t_inertia_same. exact Hfix. }
  apply Hboth.
Qed.

Lemma iterate_keeps_shape (W : Tensor) (beta_w : R) (n : nat) :
  (forall T c, shape (prox_f T c) = shape T) ->
  shape (spec_W_iterate Rx C c_w beta_w W n) = shape W.
Proof.
  intros Hprox.
  assert (Hboth : forall k,
            shape (spec_W_iterate Rx C c_w beta_w W k) = shape W
            /\ shape (spec_W_previous Rx C c_w beta_w W k) = shape W).
  { induction k as [|k [IHit IHprev]]; [split; reflexivity|].
    split; [|exact IHit].
    change (spec_W_iterate Rx C c_w beta_w W (S k))
      with (spec_W_substep Rx C c_w beta_w
              (spec_W_iterate Rx C c_w beta_w W k)
              (spec_W_previous Rx C c_w beta_w W k)).
    unfold spec_W_substep. rewrite Hprox. simpl. exact IHit. }
  apply Hboth.
Qed.

(** X3.  When the primitives keep the extent of their argument,
    [W_iter.forward] returns a tensor of the shape of its input [W]. *)
Theorem W_iter_forward_keeps_shape (self : W_iter.t) (W : Tensor)
    (beta_w : R) :
  primitives_keep_extent ->
  exists W' : Tensor,
    W_iter.forward self Rx W C c_w beta_w = Ok W' /\ shape W' = shape W.
Proof.
  intros Hextent. rewrite W_iter_forward_eq. eexists. split; [reflexivity|].
  apply iterate_keeps_shape. apply (keep_extent_shapes Hextent).
Qed.

End W_iter_extras.

(** ** FCNN_alpha *)

Section FCNN_alpha_extras.
Context `{TorchNN}.

Lemma FCNN_alpha_forward_same_data (n n' : FCNN_alpha.t) (W C : Tensor) :
  Linear_reads_data ->
  map data [ weight (FCNN_alpha.fc1 n); bias (FCNN_alpha.fc1 n);
             weight (FCNN_alpha.fc2 n); bias (FCNN_alpha.fc2 n);
             weight (FCNN_alpha.fc3 n); bias (FCNN_alpha.fc3 n) ]
  = map data [ weight (FCNN_alpha.fc1 n'); bias (FCNN_alpha.fc1 n');
               weight (FCNN_alpha.fc2 n'); bias (FCNN_alpha.fc2 n');
               weight (FCNN_alpha.fc3 n'); bias (FCNN_alpha.fc3 n') ] ->
  FCNN_alpha.forward n W C = FCNN_alpha.forward n' W C.
Proof.
  intros Hreads Hdata. simpl in Hdata.
  injection Hdata as H1 H2 H3 H4 H5 H6.
  unfold FCNN_alpha.forward.
  rewrite (Hreads _ (FCNN_alpha.fc1 n') _ H1 H2).
  destruct (Linear_forward (FCNN_alpha.fc1 n') _) as [x1|e];
    [|reflexivity].
  simpl bind. rewrite (Hreads _ (FCNN_alpha.fc2 n') _ H3 H4).
  destruct (Linear_forward (FCNN_alpha.fc2 n') _) as [x2|e];
    [|reflexivity].
  simpl bind. now rewrite (Hreads _ (FCNN_alpha.fc3 n') _ H5 H6).
Qed.

End FCNN_alpha_extras.

(** ** Block *)

Section Block_extras.
Context `{Functions} `{TorchNN}.

(** The previous iterate [C_old] enters the coefficients through [beta_w]
    alone. *)
Lemma get_coefficients_C_old (self : Block.t) (Rx : Tensor) (alpha : R)
    (C C_old C_old' : Tensor) :
  match Block.get_coefficients self Rx alpha C C_old,
        Block.get_coefficients self Rx alpha C C_old' with
  | Ok (c_w, _, c_c, beta_c), Ok (c_w', _, c_c', beta_c') =>
      c_w = c_w' /\ c_c = c_c' /\ beta_c = beta_c'
      /\ c_c = Block.gamma_c self / alpha
  | Raise e, Raise e' => e = e'
  | _, _ => False
  end.
Proof.
  unfold Block.get_coefficients.
  destruct (shape C) as [|K [|K' [|N [|x rest]]]]; try reflexivity.
  destruct (Nat.eqb (K ^ 2) 0); simpl; [reflexivity|].
  repeat split; reflexivity.
Qed.



Lemma Block_forward_inversion (b : Block.t)
    (Rx W C C_old W' C' C_old' : Tensor) :
  Block.forward b Rx W C C_old = Ok (W', C', C_old') ->
  exists alpha c_w beta_w c_c beta_c : R,
    FCNN_alpha.forward (Block.NN_alpha b) W C = Ok alpha
    /\ Block.get_coefficients b Rx alpha C C_old
       = Ok (c_w, beta_w, c_c, beta_c)
    /\ W' = spec_W_iterate Rx C c_w beta_w W
              (W_iter.N_updates_W (Block.W_iter b))
    /\ C' = spec_C_plain_step Rx C W' (Block.gamma_c b / alpha) alpha
              (Block.eps b)
    /\ C_old' = C.
Proof.
  rewrite Block_forward_steps.
  destruct (FCNN_alpha.forward (Block.NN_alpha b) W C) as [alpha|e];
    [|discriminate].
  simpl bind.
  pose proof (get_coefficients_C_old b Rx alpha C C_old C_old) as Hco.
  destruct (Block.get_coefficients b Rx alpha C C_old)
    as [[[[c_w beta_w] c_c] beta_c]|e] eqn:Hget; [|discriminate].
  destruct Hco as (_ & _ & _ & Hcc). simpl bind. cbv zeta.
  destruct (C_iter.N_updates_C (Block.C_iter b)); [discriminate|].
  intros Heq. injection Heq as <- <- <-.
  exists alpha, c_w, beta_w, c_c, beta_c. rewrite <- Hcc.
  repeat split; try reflexivity. exact Hget.
Qed.

(** X8.  When a block returns [(W', C', C_old')], [W'] is the last iterate
    of the [W] sub-steps taken at the input [C], [C'] is the plain
    proximal-gradient step on the input [C] taken at the updated [W'],
    with step size [gamma_c / alpha] for the predicted [alpha], and
    [C_old'] is the input [C]. *)
Theorem Block_forward_returns_updates (b : Block.t)
    (Rx W C C_old W' C' C_old' : Tensor) :
  Block.forward b Rx W C C_old = Ok (W', C', C_old') ->
  exists alpha c_w beta_w c_c beta_c : R,
    FCNN_alpha.forward (Block.NN_alpha b) W C = Ok alpha
    /\ Block.get_coefficients b Rx alpha C C_old
       = Ok (c_w, beta_w, c_c, beta_c)
    /\ W' = spec_W_iterate Rx C c_w beta_w W
              (W_iter.N_updates_W (Block.W_iter b))
    /\ C' = spec_C_plain_step Rx C W' (Block.gamma_c b / alpha) alpha
              (Block.eps b)
    /\ C_old' = C.
Proof. apply Block_forward_inversion. Qed.

Lemma Block_forward_shapes (b : Block.t)
    (Rx W C C_old W' C' C_old' : Tensor) :
  prox_shapes_kept ->
  Block.forward b Rx W C C_old = Ok (W', C', C_old') ->
  shape W' = shape W /\ shape C' = shape C /\ shape C_old' = shape C.
Proof.
  intros [Hf Hg] Hret.
  destruct (Block_forward_inversion _ _ _ _ _ _ _ _ Hret)
    as (alpha & c_w & beta_w & c_c & beta_c & _ & _ & HW & HC & HCo).
  subst C' C_old'. split; [|split; [|reflexivity]].
  - subst W'. now apply iterate_keeps_shape.
  - unfold spec_C_plain_step. now rewrite Hg.
Qed.

(** X9.  When the primitives keep the extent of their argument, a block
    that returns hands back a [W] and a [C] of the shapes of its inputs. *)
Theorem Block_forward_keeps_shapes (b : Block.t)
    (Rx W C C_old W' C' C_old' : Tensor) :
  primitives_keep_extent ->
  Block.forward b Rx W C C_old = Ok (W', C', C_old') ->
  shape W' = shape W /\ shape C' = shape C /\ shape C_old' = shape C.
Proof.
  intros Hextent. apply Block_forward_shapes.
  apply (keep_extent_shapes Hextent).
Qed.

End Block_extras.

(** ** myModel.forward *)

Lemma ModuleList_getitem_negative {A : Type} (l : list A) (idx : Z) (x : A) :
  (- Z.of_nat (List.length l) <= idx < 0)%Z ->
  nth_error l (Z.to_nat (Z.of_nat (List.length l) + idx)) = Some x ->
  ModuleList_getitem l idx = Ok x.
Proof.
  intros Hidx Hnth. unfold ModuleList_getitem.
  replace ((- Z.of_nat (List.length l) <=? idx)%Z) with true
    by (symmetry; apply Z.leb_le; lia).
  replace ((idx <? Z.of_nat (List.length l))%Z) with true
    by (symmetry; apply Z.ltb_lt; lia).
  replace ((idx <? 0)%Z) with true by (symmetry; apply Z.ltb_lt; lia).
  simpl. rewrite Z.add_comm, Hnth. reflexivity.
Qed.

Section myModel_forward_extras.
Context `{Functions} `{TorchNN}.

(** X12.  In the two single-layer modes a negative layer index from
    [-len(Layers)] on counts from the end: the call runs the block at
    position [len(Layers) + layer], so [layer = -1] runs the last block. *)
Theorem forward_negative_layer (self : myModel.t) (Rx W C : Tensor)
    (mode : string) (layer : Z) (b : Block.t) :
  mode = "first_layer"%string \/ mode = "greedy"%string ->
  (- Z.of_nat (List.length (myModel.Layers self)) <= layer < 0)%Z ->
  nth_error (myModel.Layers self)
    (Z.to_nat (Z.of_nat (List.length (myModel.Layers self)) + layer))
  = Some b ->
  myModel.forward self Rx W C mode layer = spec_single_block b Rx W C.
Proof.
  intros Hmode Hlayer Hnth.
  rewrite forward_single_layer_mode by assumption.
  now rewrite (ModuleList_getitem_negative _ _ _ Hlayer Hnth).
Qed.

Lemma forward_test_blocks (self : myModel.t) (Rx W C : Tensor) (layer : Z) :
  myModel.forward self Rx W C "test" layer
  = spec_apply_blocks (myModel.Layers self) Rx W C.
Proof.
  unfold myModel.forward, for_range. simpl orb. cbv iota.
  apply (test_loop_blocks self Rx (myModel.Layers self) []). reflexivity.
Qed.

Lemma spec_apply_blocks_app (l1 l2 : list Block.t) (Rx W C : Tensor) :
  spec_apply_blocks (l1 ++ l2) Rx W C
  = ('(W', C') <- spec_apply_blocks l1 Rx W C ;;
     spec_apply_blocks l2 Rx W' C').
Proof.
  revert W C. induction l1 as [|b l1 IH]; intros W C; [reflexivity|].
  simpl. destruct (spec_single_block b Rx W C) as [[W1 C1]|e];
    [|reflexivity].
  simpl bind. apply IH.
Qed.

(** X13.  In mode 'test' a network whose layers are [l1] followed by [l2]
    computes what the network of [l1] followed by the network of [l2]
    computes, an exception of the first ending the run; a network without
    layers returns its input. *)
Theorem forward_test_splits (l1 l2 : list Block.t) (Rx W C : Tensor)
    (layer : Z) :
  myModel.forward (myModel.mk (l1 ++ l2)) Rx W C "test" layer
  = ('(W', C') <- myModel.forward (myModel.mk l1) Rx W C "test" layer ;;
     myModel.forward (myModel.mk l2) Rx W' C' "test" layer)
  /\ myModel.forward (myModel.mk []) Rx W C "test" layer = Ok (W, C).
Proof.
  split; [|reflexivity].
  rewrite !forward_test_blocks. simpl myModel.Layers.
  rewrite spec_apply_blocks_app.
  destruct (spec_apply_blocks l1 Rx W C) as [[W1 C1]|e]; [|reflexivity].
  simpl bind. now rewrite forward_test_blocks.
Qed.

Lemma spec_single_block_shapes (b : Block.t) (Rx W C W' C' : Tensor) :
  prox_shapes_kept ->
  spec_single_block b Rx W C = Ok (W', C') ->
  shape W' = shape W /\ shape C' = shape C.
Proof.
  intros Hkept. unfold spec_single_block.
  destruct (Block.forward b Rx W C (clone C)) as [[[W1 C1] Co]|e] eqn:Hfw;
    [|discriminate].
  simpl. intros Heq. injection Heq as <- <-.
  destruct (Block_forward_shapes _ _ _ _ _ _ _ _ Hkept Hfw) as (HW & HC & _).
  now split.
Qed.

Lemma spec_apply_blocks_shapes (blocks : list Block.t) (Rx : Tensor) :
  prox_shapes_kept ->
  forall W C W' C' : Tensor,
    spec_apply_blocks blocks Rx W C = Ok (W', C') ->
    shape W' = shape W /\ shape C' = shape C.
Proof.
  intros Hkept. induction blocks as [|b blocks IH]; intros W C W' C' Hrun.
  - injection Hrun as <- <-. now split.
  - simpl in Hrun.
    destruct (spec_single_block b Rx W C) as [[W1 C1]|e] eqn:Hone;
      [|discriminate].
    simpl in Hrun.
    destruct (spec_single_block_shapes _ _ _ _ _ _ Hkept Hone) as [HW1 HC1].
    destruct (IH _ _ _ _ Hrun) as [HW' HC'].
    split; congruence.
Qed.

(** X14.  When the primitives keep the extent of their argument, every
    call of [myModel.forward] that returns, in whatever mode, returns a
    [W] and a [C] of the shapes of its inputs. *)
Theorem forward_keeps_shapes (self : myModel.t) (Rx W C W' C' : Tensor)
    (mode : string) (layer : Z) :
  primitives_keep_extent ->
  myModel.forward self Rx W C mode layer = Ok (W', C') ->
  shape W' = shape W /\ shape C' = shape C.
Proof.
  intros Hextent Hret. pose proof (keep_extent_shapes Hextent) as Hkept.
  destruct (String.eqb mode "first_layer" || String.eqb mode "greedy")%bool
    eqn:Hsingle.
  - assert (Hmode : mode = "first_layer"%string \/ mode = "greedy"%string).
    { apply orb_true_iff in Hsingle.
      destruct Hsingle as [Hm | Hm]; apply String.eqb_eq in Hm; auto. }
    rewrite forward_single_layer_mode in Hret by assumption.
    destruct (ModuleList_getitem (myModel.Layers self) layer) as [b|e];
      [|discriminate].
    simpl in Hret. now apply (spec_single_block_shapes b Rx).
  - destruct (String.eqb mode "test") eqn:Htest.
    + apply String.eqb_eq in Htest. subst mode.
      rewrite forward_test_blocks in Hret.
      now apply (spec_apply_blocks_shapes (myModel.Layers self) Rx).
    + unfold myModel.forward in Hret. rewrite Hsingle, Htest in Hret.
      injection Hret as <- <-. now split.
Qed.

Lemma Block_forward_without_C_update (b : Block.t) (Rx W C C_old : Tensor) :
  C_iter.N_updates_C (Block.C_iter b) = 0%nat ->
  forall r, Block.forward b Rx W C C_old <> Ok r.
Proof.
  intros HN r. rewrite Block_forward_steps, HN.
  destruct (FCNN_alpha.forward (Block.NN_alpha b) W C) as [alpha|e];
    [|discriminate].
  simpl bind.
  destruct (Block.get_coefficients b Rx alpha C C_old)
    as [[[[c_w beta_w] c_c] beta_c]|e]; discriminate.
Qed.

(** X15.  A network that contains a block configured without [C] updates
    never returns in mode 'test'. *)
Theorem forward_test_needs_C_updates (self : myModel.t) (Rx W C : Tensor)
    (layer : Z) (b : Block.t) :
  In b (myModel.Layers self) ->
  C_iter.N_updates_C (Block.C_iter b) = 0%nat ->
  forall r, myModel.forward self Rx W C "test" layer <> Ok r.
Proof.
  intros Hin HN r. rewrite forward_test_blocks.
  revert W C. induction (myModel.Layers self) as [|b0 blocks IH];
    intros W C; [destruct Hin|].
  simpl. unfold spec_single_block at 1.
  destruct (Block.forward b0 Rx W C (clone C)) as [[[W1 C1] Co]|e] eqn:Hfw;
    [|discriminate].
  simpl bind. destruct Hin as [-> | Hin].
  - exfalso. exact (Block_forward_without_C_update _ _ _ _ _ HN _ Hfw).
  - now apply IH.
Qed.

End myModel_forward_extras.

(** ** myModel.GradFalse *)

Lemma ModuleList_getitem_inv {A : Type} (l : list A) (idx : Z) (x : A) :
  (0 <= idx)%Z ->
  ModuleList_getitem l idx = Ok x ->
  nth_error l (Z.to_nat idx) = Some x
  /\ (idx < Z.of_nat (List.length l))%Z.
Proof.
  intros Hpos. unfold ModuleList_getitem.
  destruct (Z.leb_spec (- Z.of_nat (List.length l)) idx);
    destruct (Z.ltb_spec idx (Z.of_nat (List.length l)));
    simpl; try discriminate.
  replace ((idx <? 0)%Z) with false by (symmetry; apply Z.ltb_ge; lia).
  destruct (nth_error l (Z.to_nat idx)) as [y|]; [|discriminate].
  intros Heq. injection Heq as <-. now split.
Qed.

Lemma shape_eqb_shape (A B : Tensor) : shape_eqb A B = true -> shape A = shape B.
Proof.
  unfold shape_eqb.
  destruct (list_eq_dec Nat.eq_dec (shape A) (shape B)); [auto|discriminate].
Qed.

Lemma load_state_dict_inv (target source target' : Block.t) :
  Block.load_state_dict target (Block.state_dict source) = Ok target' ->
  map shape (param_values source) = map shape (param_values target)
  /\ target' = copy_values target source.
Proof.
  unfold Block.load_state_dict, Block.state_dict, Block.parameters,
    Block.load_param, param_values, Block.parameters.
  simpl.
  repeat match goal with
         | |- context [shape_eqb ?a ?b] =>
             let Hs := fresh "Hs" in
             destruct (shape_eqb a b) eqn:Hs;
             [apply shape_eqb_shape in Hs|discriminate]; simpl
         end.
  intros Heq. injection Heq as <-. split; [|reflexivity].
  congruence.
Qed.

Lemma freeze_block_idempotent (b : Block.t) :
  freeze_block (freeze_block b) = freeze_block b.
Proof. reflexivity. Qed.

Lemma freeze_prefix_max (m n : nat) (l : list Block.t) :
  freeze_prefix n (freeze_prefix m l) = freeze_prefix (Nat.max n m) l.
Proof.
  unfold freeze_prefix. revert m n.
  induction l as [|b l IH]; intros [|m] [|n]; simpl; try reflexivity.
  rewrite freeze_block_idempotent. f_equal. apply IH.
Qed.

Lemma freeze_prefix_idempotent (n : nat) (l : list Block.t) :
  freeze_prefix n (freeze_prefix n l) = freeze_prefix n l.
Proof. now rewrite freeze_prefix_max, Nat.max_id. Qed.

Lemma ModuleList_store_same {A : Type} (l : list A) (k : nat) (x : A) :
  nth_error l k = Some x -> ModuleList_store l k x = l.
Proof.
  revert k. induction l as [|a l IH]; intros [|k] Hnth; simpl in *;
    try discriminate.
  - now injection Hnth as ->.
  - now rewrite IH.
Qed.

(** Past the last layer the freezing loop raises at the first index without
    a layer. *)
Lemma freeze_loop_out_of_range :
  forall (n : nat) (pre post : list Block.t),
    (List.length post < n)%nat ->
    for_range_from (A := unit) (List.length pre) n
      (fun i layers =>
         b <- ModuleList_getitem layers (Z.of_nat i) ;;
         Ok (Continue
               (ModuleList_store layers i
                  (Block.map_parameters myModel.freeze_parameter
                     (Block.eval b)))))
      (pre ++ post)
    = Raise IndexError.
Proof.
  induction n as [|n IH]; intros pre post Hn; [lia|].
  simpl for_range_from. destruct post as [|b post].
  - rewrite ModuleList_getitem_out_of_range
      by (right; rewrite app_nil_r; lia).
    reflexivity.
  - rewrite (ModuleList_getitem_nat _ _ b)
      by (rewrite nth_error_app2, Nat.sub_diag by lia; reflexivity).
    simpl bind. rewrite ModuleList_store_app.
    specialize (IH (pre ++ [freeze_block b]) post).
    rewrite length_app, Nat.add_1_r, <- app_assoc in IH.
    apply IH. simpl in Hn. lia.
Qed.

Lemma freeze_loop_all_out_of_range (n : nat) (layers : list Block.t) :
  (List.length layers < n)%nat ->
  for_range_from (A := unit) 0 n
    (fun i layers =>
       b <- ModuleList_getitem layers (Z.of_nat i) ;;
       Ok (Continue
             (ModuleList_store layers i
                (Block.map_parameters myModel.freeze_parameter
                   (Block.eval b)))))
    layers
  = Raise IndexError.
Proof. intros Hn. exact (freeze_loop_out_of_range n [] layers Hn). Qed.

Lemma GradFalse_not_positive (self : myModel.t) (block : Z) (mode : string) :
  (block < 1)%Z -> myModel.GradFalse self block mode = Ok self.
Proof.
  intros Hb. unfold myModel.GradFalse.
  now replace (1 <=? block)%Z with false by (symmetry; apply Z.leb_gt; lia).
Qed.

Lemma GradFalse_plain_out_of_range (self : myModel.t) (block : Z)
    (mode : string) :
  mode <> "greedy"%string ->
  (Z.of_nat (List.length (myModel.Layers self)) < block)%Z ->
  myModel.GradFalse self block mode = Raise IndexError.
Proof.
  intros Hmode Hb. unfold myModel.GradFalse, for_range.
  replace (1 <=? block)%Z with true by (symmetry; apply Z.leb_le; lia).
  rewrite (proj2 (String.eqb_neq mode "greedy") Hmode).
  simpl bind.
  rewrite freeze_loop_all_out_of_range by lia. reflexivity.
Qed.

(** X16.  In a mode other than 'greedy', [GradFalse(block, mode)] does
    nothing for [block < 1]; for [1 <= block <= len(Layers)] it returns
    the network with its first [block] layers frozen and the others as
    they were, so that [block = len(Layers)] freezes every layer; for
    [block > len(Layers)] it raises [IndexError]. *)
Theorem GradFalse_plain_cases (self : myModel.t) (block : Z)
    (mode : string) :
  mode <> "greedy"%string ->
  ((block < 1)%Z -> myModel.GradFalse self block mode = Ok self)
  /\ ((1 <= block <= Z.of_nat (List.length (myModel.Layers self)))%Z ->
      exists self' : myModel.t,
        myModel.GradFalse self block mode = Ok self'
        /\ myModel.Layers self'
           = map freeze_block (firstn (Z.to_nat block) (myModel.Layers self))
             ++ skipn (Z.to_nat block) (myModel.Layers self)
        /\ Forall frozen (firstn (Z.to_nat block) (myModel.Layers self')))
  /\ ((Z.of_nat (List.length (myModel.Layers self)) < block)%Z ->
      myModel.GradFalse self block mode = Raise IndexError).
Proof.
  intros Hmode. split; [|split].
  - apply GradFalse_not_positive.
  - intros Hb. eexists. split; [now apply GradFalse_plain_in_range|].
    split; [reflexivity|]. simpl myModel.Layers. unfold freeze_prefix.
    rewrite firstn_app, length_map, length_firstn.
    replace (Z.to_nat block
             - Nat.min (Z.to_nat block) (List.length (myModel.Layers self)))%nat
      with 0%nat by lia.
    simpl firstn at 2. rewrite app_nil_r.
    rewrite firstn_all2 by (rewrite length_map, length_firstn; lia).
    apply Forall_forall. intros b Hin. apply in_map_iff in Hin.
    destruct Hin as (b0 & <- & _). apply freeze_block_frozen.
  - now apply GradFalse_plain_out_of_range.
Qed.

(** The copy and the freezing of mode 'greedy', when the two layers have
    parameters of equal shapes. *)
Lemma GradFalse_greedy_eval (L : list Block.t) (block : Z)
    (target source : Block.t) :
  (1 <= block)%Z ->
  nth_error L (Z.to_nat block) = Some target ->
  nth_error L (Z.to_nat block - 1) = Some source ->
  map shape (param_values source) = map shape (param_values target) ->
  myModel.GradFalse (myModel.mk L) block "greedy"
  = Ok (myModel.mk
          (freeze_prefix (Z.to_nat block)
             (ModuleList_store L (Z.to_nat block)
                (copy_values target source)))).
Proof.
  intros Hb Htarget Hsource Hshapes.
  assert (Hk : (Z.to_nat block < List.length L)%nat).
  { apply nth_error_Some. congruence. }
  unfold myModel.GradFalse, for_range. simpl myModel.Layers.
  replace (1 <=? block)%Z with true by (symmetry; apply Z.leb_le; lia).
  simpl String.eqb. cbv iota.
  pose proof (ModuleList_getitem_nat _ _ _ Htarget) as Hgt.
  pose proof (ModuleList_getitem_nat _ _ _ Hsource) as Hgs.
  rewrite Z2Nat.id in Hgt by lia.
  replace (Z.of_nat (Z.to_nat block - 1)) with (block - 1)%Z in Hgs by lia.
  rewrite Hgt, Hgs. simpl bind.
  rewrite load_state_dict_copy by assumption. simpl bind.
  rewrite freeze_loop_all by (rewrite ModuleList_store_length; lia).
  reflexivity.
Qed.

(** What a returning call of [GradFalse] has done. *)
Lemma GradFalse_result (self self' : myModel.t) (block : Z) (mode : string) :
  myModel.GradFalse self block mode = Ok self' ->
  ((block < 1)%Z /\ self' = self)
  \/ ((1 <= block <= Z.of_nat (List.length (myModel.Layers self)))%Z
      /\ mode <> "greedy"%string
      /\ myModel.Layers self'
         = freeze_prefix (Z.to_nat block) (myModel.Layers self))
  \/ ((1 <= block < Z.of_nat (List.length (myModel.Layers self)))%Z
      /\ mode = "greedy"%string
      /\ exists target source : Block.t,
           nth_error (myModel.Layers self) (Z.to_nat block) = Some target
           /\ nth_error (myModel.Layers self) (Z.to_nat block - 1)
              = Some source
           /\ map shape (param_values source)
              = map shape (param_values target)
           /\ myModel.Layers self'
              = freeze_prefix (Z.to_nat block)
                  (ModuleList_store (myModel.Layers self) (Z.to_nat block)
                     (copy_values target source))).
Proof.
  intros Hcall.
  destruct (Z.lt_ge_cases block 1) as [Hlow | Hpos].
  { left. rewrite GradFalse_not_positive in Hcall by assumption.
    injection Hcall as <-. now split. }
  right. destruct (String.eqb mode "greedy") eqn:Hmode.
  - right. apply String.eqb_eq in Hmode. subst mode.
    pose proof Hcall as Hrun. unfold myModel.GradFalse in Hrun.
    replace (1 <=? block)%Z with true in Hrun
      by (symmetry; apply Z.leb_le; lia).
    simpl String.eqb in Hrun. cbv iota in Hrun.
    destruct (ModuleList_getitem (myModel.Layers self) block)
      as [target|e] eqn:Hgt; [|discriminate].
    simpl bind in Hrun.
    destruct (ModuleList_getitem (myModel.Layers self) (block - 1))
      as [source|e] eqn:Hgs; [|discriminate].
    simpl bind in Hrun.
    destruct (Block.load_state_dict target (Block.state_dict source))
      as [target'|e] eqn:Hload; [|discriminate].
    clear Hrun.
    apply ModuleList_getitem_inv in Hgt; [|lia].
    apply ModuleList_getitem_inv in Hgs; [|lia].
    destruct Hgt as [Htarget Hlt]. destruct Hgs as [Hsource _].
    replace (Z.to_nat (block - 1)) with (Z.to_nat block - 1)%nat in Hsource
      by lia.
    destruct (load_state_dict_inv _ _ _ Hload) as [Hshapes ->].
    split; [lia|]. split; [reflexivity|].
    exists target, source. repeat split; try assumption.
    destruct self as [L]. simpl myModel.Layers in *.
    rewrite (GradFalse_greedy_eval L block target source) in Hcall
      by (assumption || lia).
    now injection Hcall as <-.
  - left. apply String.eqb_neq in Hmode.
    destruct (Z.le_gt_cases block
                (Z.of_nat (List.length (myModel.Layers self))))
      as [Hin | Hout].
    + rewrite GradFalse_plain_in_range in Hcall by (assumption || lia).
      injection Hcall as <-. repeat split; (assumption || lia).
    + rewrite GradFalse_plain_out_of_range in Hcall by assumption.
      discriminate.
Qed.

(** X17.  [GradFalse] is idempotent: a second call with the same arguments
    returns the network the first call returned. *)
Theorem GradFalse_idempotent (self self' : myModel.t) (block : Z)
    (mode : string) :
  myModel.GradFalse self block mode = Ok self' ->
  myModel.GradFalse self' block mode = Ok self'.
Proof.
  intros Hcall.
  destruct (GradFalse_result _ _ _ _ Hcall)
    as [[Hlow ->] | [(Hb & Hmode & HL) | (Hb & -> & Hgreedy)]].
  - now apply GradFalse_not_positive.
  - rewrite GradFalse_plain_in_range
      by (assumption || (rewrite HL, freeze_prefix_length; lia)).
    rewrite HL, freeze_prefix_idempotent, <- HL. now destruct self'.
  - destruct Hgreedy as (target & source & Htarget & Hsource & Hshapes & HL).
    set (k := Z.to_nat block) in *.
    set (L1 := ModuleList_store (myModel.Layers self) k
                 (copy_values target source)) in *.
    assert (Hk : (k < List.length (myModel.Layers self))%nat)
      by (unfold k; lia).
    assert (Hnew : nth_error (freeze_prefix k L1) k
                   = Some (copy_values target source)).
    { rewrite nth_error_freeze_prefix, Nat.ltb_irrefl. unfold L1.
      rewrite nth_error_ModuleList_store by assumption.
      now rewrite Nat.eqb_refl. }
    assert (Hprev : nth_error (freeze_prefix k L1) (k - 1)
                    = Some (freeze_block source)).
    { rewrite nth_error_freeze_prefix.
      rewrite (proj2 (Nat.ltb_lt (k - 1) k)) by (unfold k; lia).
      unfold L1. rewrite nth_error_ModuleList_store by assumption.
      rewrite (proj2 (Nat.eqb_neq (k - 1) k)) by (unfold k; lia).
      now rewrite Hsource. }
    destruct self' as [L']. simpl myModel.Layers in HL. subst L'.
    rewrite (GradFalse_greedy_eval _ block (copy_values target source)
               (freeze_block source))
      by (assumption || lia || reflexivity).
    fold k.
    change (copy_values (copy_values target source) (freeze_block source))
      with (copy_values target source).
    rewrite ModuleList_store_same by assumption.
    now rewrite freeze_prefix_idempotent.
Qed.

(** X18.  In modes other than 'greedy' freezing accumulates: a call for
    [b1] followed by a call for [b2], both within the network, leaves the
    network that one call for the larger of the two leaves. *)
Theorem GradFalse_plain_composes (self : myModel.t) (b1 b2 : Z)
    (mode mode' : string) :
  mode <> "greedy"%string ->
  mode' <> "greedy"%string ->
  (1 <= b1 <= Z.of_nat (List.length (myModel.Layers self)))%Z ->
  (1 <= b2 <= Z.of_nat (List.length (myModel.Layers self)))%Z ->
  (self1 <- myModel.GradFalse self b1 mode ;;
   myModel.GradFalse self1 b2 mode')
  = myModel.GradFalse self (Z.max b1 b2) mode.
Proof.
  intros Hmode Hmode' Hb1 Hb2.
  rewrite (GradFalse_plain_in_range self b1) by assumption. simpl bind.
  rewrite GradFalse_plain_in_range
    by (assumption || (simpl; rewrite freeze_prefix_length; lia)).
  rewrite (GradFalse_plain_in_range self (Z.max b1 b2)) by (assumption || lia).
  simpl myModel.Layers. rewrite freeze_prefix_max.
  now rewrite Z2Nat.inj_max, Nat.max_comm.
Qed.

(** ** Freezing and the forward pass *)

Section Freezing_and_forward.
Context `{Functions} `{TorchNN}.

(** Two blocks with the same parameter entries and the same configuration
    compute the same. *)
Lemma Block_forward_same_values (b b' : Block.t) (Rx W C C_old : Tensor) :
  Linear_reads_data ->
  param_values b = param_values b' ->
  hyperparameters b = hyperparameters b' ->
  Block.forward b Rx W C C_old = Block.forward b' Rx W C C_old.
Proof.
  intros Hreads Hvalues Hhyper.
  destruct b as [d n wi ci gc gw ep v z tr].
  destruct b' as [d' n' wi' ci' gc' gw' ep' v' z' tr'].
  unfold hyperparameters in Hhyper. simpl in Hhyper.
  injection Hhyper as -> -> -> -> -> -> -> ->.
  unfold Block.forward. simpl Block.NN_alpha.
  rewrite (FCNN_alpha_forward_same_data n n' W C Hreads Hvalues).
  reflexivity.
Qed.

Lemma Block_forward_freeze (b : Block.t) (Rx W C C_old : Tensor) :
  Linear_reads_data ->
  Block.forward (freeze_block b) Rx W C C_old = Block.forward b Rx W C C_old.
Proof.
  intros Hreads. apply Block_forward_same_values;
    [assumption|reflexivity|reflexivity].
Qed.

Lemma spec_single_block_freeze (b : Block.t) (Rx W C : Tensor) :
  Linear_reads_data ->
  spec_single_block (freeze_block b) Rx W C = spec_single_block b Rx W C.
Proof.
  intros Hreads. unfold spec_single_block.
  now rewrite Block_forward_freeze.
Qed.

Lemma spec_apply_blocks_freeze (Rx : Tensor) :
  Linear_reads_data ->
  forall (L : list Block.t) (k : nat) (W C : Tensor),
    spec_apply_blocks (freeze_prefix k L) Rx W C
    = spec_apply_blocks L Rx W C.
Proof.
  intros Hreads. unfold freeze_prefix.
  induction L as [|b L IH]; intros [|k] W C; try reflexivity.
  simpl. rewrite spec_single_block_freeze by assumption.
  destruct (spec_single_block b Rx W C) as [[W1 C1]|e]; [|reflexivity].
  simpl bind. apply IH.
Qed.

Lemma getitem_freeze_prefix (L : list Block.t) (k : nat) (idx : Z) :
  ModuleList_getitem (freeze_prefix k L) idx
  = (b <- ModuleList_getitem L idx ;;
     Ok (if Nat.ltb
              (Z.to_nat (if (idx <? 0)%Z
                         then (idx + Z.of_nat (List.length L))%Z else idx))
              k
         then freeze_block b else b)).
Proof.
  unfold ModuleList_getitem. rewrite freeze_prefix_length.
  destruct ((- Z.of_nat (List.length L) <=? idx)%Z
            && (idx <? Z.of_nat (List.length L))%Z)%bool; [|reflexivity].
  rewrite nth_error_freeze_prefix.
  destruct (nth_error L _) as [b|]; simpl;
    destruct (Nat.ltb _ k); reflexivity.
Qed.

(** X19.  Freezing does not change what the network computes: when
    applying a [Linear] reads its entries only, the network a call of
    [GradFalse] in a mode other than 'greedy' returns has, in every mode
    and for every input, the outcome of [forward] the network had
    before. *)
Theorem GradFalse_plain_keeps_forward (self self' : myModel.t) (block : Z)
    (gmode : string) (Rx W C : Tensor) (mode : string) (layer : Z) :
  Linear_reads_data ->
  gmode <> "greedy"%string ->
  myModel.GradFalse self block gmode = Ok self' ->
  myModel.forward self' Rx W C mode layer
  = myModel.forward self Rx W C mode layer.
Proof.
  intros Hreads Hgmode Hcall.
  destruct (GradFalse_result _ _ _ _ Hcall)
    as [[_ ->] | [(Hb & _ & HL) | (_ & Hg & _)]];
    [reflexivity| |contradiction].
  destruct (String.eqb mode "first_layer" || String.eqb mode "greedy")%bool
    eqn:Hsingle.
  - assert (Hmode : mode = "first_layer"%string \/ mode = "greedy"%string).
    { apply orb_true_iff in Hsingle.
      destruct Hsingle as [Hm | Hm]; apply String.eqb_eq in Hm; auto. }
    rewrite !forward_single_layer_mode by assumption.
    rewrite HL, getitem_freeze_prefix.
    destruct (ModuleList_getitem (myModel.Layers self) layer) as [b|e];
      [|reflexivity].
    simpl bind. destruct (Nat.ltb _ _); [|reflexivity].
    now apply spec_single_block_freeze.
  - destruct (String.eqb mode "test") eqn:Htest.
    + apply String.eqb_eq in Htest. subst mode.
      rewrite !forward_test_blocks, HL. now apply spec_apply_blocks_freeze.
    + unfold myModel.forward. now rewrite Hsingle, Htest.
Qed.

(** X20.  After a returning [GradFalse(block, 'greedy')] with
    [block >= 1], and when applying a [Linear] reads its entries only,
    layer [block] predicts the [alpha] that layer [block - 1] predicted
    before the call; if the two layers were configured alike, the whole
    block call of layer [block] has the outcome that of layer [block - 1]
    had. *)
Theorem GradFalse_greedy_starts_from_previous (self self' : myModel.t)
    (block : Z) (b' target source : Block.t) (Rx W C C_old : Tensor) :
  Linear_reads_data ->
  (1 <= block)%Z ->
  myModel.GradFalse self block "greedy" = Ok self' ->
  nth_error (myModel.Layers self') (Z.to_nat block) = Some b' ->
  nth_error (myModel.Layers self) (Z.to_nat block) = Some target ->
  nth_error (myModel.Layers self) (Z.to_nat block - 1) = Some source ->
  FCNN_alpha.forward (Block.NN_alpha b') W C
  = FCNN_alpha.forward (Block.NN_alpha source) W C
  /\ (hyperparameters target = hyperparameters source ->
      Block.forward b' Rx W C C_old = Block.forward source Rx W C C_old).
Proof.
  intros Hreads Hpos Hcall Hb' Htarget Hsource.
  destruct (GradFalse_result _ _ _ _ Hcall)
    as [[Hlow _] | [(_ & Hg & _) | (Hb & _ & Hgreedy)]];
    [lia|now contradiction Hg|].
  destruct Hgreedy as (target0 & source0 & Ht0 & Hs0 & _ & HL).
  rewrite Htarget in Ht0. injection Ht0 as <-.
  rewrite Hsource in Hs0. injection Hs0 as <-.
  rewrite HL, nth_error_freeze_prefix, Nat.ltb_irrefl in Hb'.
  rewrite nth_error_ModuleList_store, Nat.eqb_refl in Hb' by lia.
  injection Hb' as <-. split.
  - now apply FCNN_alpha_forward_same_data.
  - intros Hhyper. apply Block_forward_same_values;
      [assumption|reflexivity|exact Hhyper].
Qed.

End Freezing_and_forward.

(** Every layer of the network a call returns has the parameter shapes and
    the configuration of a layer of the network before. *)
Lemma GradFalse_layer_origin (self self' : myModel.t) (block : Z)
    (mode : string) :
  myModel.GradFalse self block mode = Ok self' ->
  List.length (myModel.Layers self') = List.length (myModel.Layers self)
  /\ (forall (i : nat) (b' : Block.t),
        nth_error (myModel.Layers self') i = Some b' ->
        exists b : Block.t,
          nth_error (myModel.Layers self) i = Some b
          /\ hyperparameters b' = hyperparameters b
          /\ exists b0 : Block.t,
               In b0 (myModel.Layers self)
               /\ map shape (param_values b')
                  = map shape (param_values b0)).
Proof.
  intros Hcall.
  destruct (GradFalse_result _ _ _ _ Hcall)
    as [[_ ->] | [(Hb & _ & HL) | (Hb & _ & Hgreedy)]].
  - split; [reflexivity|]. intros i b' Hnth. exists b'.
    split; [assumption|]. split; [reflexivity|]. exists b'.
    split; [eapply nth_error_In; eassumption|reflexivity].
  - split; [rewrite HL; apply freeze_prefix_length|].
    intros i b' Hnth. rewrite HL, nth_error_freeze_prefix in Hnth.
    destruct (nth_error (myModel.Layers self) i) as [b|] eqn:Hb0;
      [|destruct (Nat.ltb i _); discriminate].
    exists b. split; [reflexivity|].
    assert (Hin : In b (myModel.Layers self))
      by (eapply nth_error_In; eassumption).
    destruct (Nat.ltb i _); simpl in Hnth; injection Hnth as <-;
      (split; [reflexivity|]); exists b; split; (assumption || reflexivity).
  - destruct Hgreedy as (target & source & Htarget & Hsource & Hshapes & HL).
    set (k := Z.to_nat block) in *.
    assert (Hk : (k < List.length (myModel.Layers self))%nat)
      by (unfold k; lia).
    split; [rewrite HL, freeze_prefix_length;
            apply ModuleList_store_length|].
    intros i b' Hnth. rewrite HL, nth_error_freeze_prefix in Hnth.
    rewrite nth_error_ModuleList_store in Hnth by assumption.
    destruct (Nat.eqb i k) eqn:Hik.
    + apply Nat.eqb_eq in Hik. subst i. rewrite Nat.ltb_irrefl in Hnth.
      injection Hnth as <-. exists target. split; [assumption|].
      split; [reflexivity|]. exists source.
      split; [eapply nth_error_In; eassumption|reflexivity].
    + destruct (nth_error (myModel.Layers self) i) as [b|] eqn:Hb0;
        [|destruct (Nat.ltb i k); discriminate].
      exists b. split; [reflexivity|].
      assert (Hin : In b (myModel.Layers self))
        by (eapply nth_error_In; eassumption).
      destruct (Nat.ltb i k); simpl in Hnth; injection Hnth as <-;
        (split; [reflexivity|]); exists b; split;
        (assumption || reflexivity).
Qed.

(** X21.  A returning call of [GradFalse] keeps the number of layers and
    the configuration (sub-step counts and theory constants) of every
    layer, and a network whose layers have parameters of equal shapes
    still has after the call. *)
Theorem GradFalse_keeps_architecture (self self' : myModel.t) (block : Z)
    (mode : string) :
  myModel.GradFalse self block mode = Ok self' ->
  List.length (myModel.Layers self') = List.length (myModel.Layers self)
  /\ (forall (i : nat) (b b' : Block.t),
        nth_error (myModel.Layers self) i = Some b ->
        nth_error (myModel.Layers self') i = Some b' ->
        hyperparameters b' = hyperparameters b)
  /\ (same_architecture self -> same_architecture self').
Proof.
  intros Hcall.
  destruct (GradFalse_layer_origin _ _ _ _ Hcall) as [Hlen Horigin].
  split; [exact Hlen|]. split.
  - intros i b b' Hb Hb'.
    destruct (Horigin i b' Hb') as (b0 & Hb0 & Hhyper & _).
    congruence.
  - intros Harch b1 b2 Hin1 Hin2.
    apply In_nth_error in Hin1. destruct Hin1 as [i1 Hn1].
    apply In_nth_error in Hin2. destruct Hin2 as [i2 Hn2].
    destruct (Horigin i1 b1 Hn1) as (_ & _ & _ & c1 & Hc1 & ->).
    destruct (Horigin i2 b2 Hn2) as (_ & _ & _ & c2 & Hc2 & ->).
    now apply Harch.
Qed.

(** ** The constructors *)

Section Constructors.
Variables (input_dim N_updates_W N_updates_C num_layers : nat).
Variables (gamma_c gamma_w eps nu zeta : R).
Variable rand : nat -> nat -> nat -> R.

Let net : myModel.t :=
  myModel.init input_dim N_updates_W N_updates_C num_layers
    gamma_c gamma_w eps nu zeta rand.

Lemma init_layer (i : nat) (b : Block.t) :
  nth_error (myModel.Layers net) i = Some b ->
  (i < num_layers)%nat
  /\ b = Block.init input_dim N_updates_W N_updates_C
           gamma_c gamma_w eps nu zeta (rand i).
Proof.
  unfold net, myModel.init. simpl myModel.Layers. intros Hnth.
  assert (Hi : (i < num_layers)%nat).
  { assert (Hsome : nth_error
                      (map (fun i => Block.init input_dim N_updates_W
                                       N_updates_C gamma_c gamma_w eps nu
                                       zeta (rand i))
                         (seq 0 num_layers)) i <> None) by congruence.
    apply nth_error_Some in Hsome.
    now rewrite length_map, length_seq in Hsome. }
  split; [exact Hi|].
  rewrite nth_error_map, nth_error_seq in Hnth.
  rewrite (proj2 (Nat.ltb_lt i num_layers) Hi) in Hnth.
  simpl in Hnth. now injection Hnth as <-.
Qed.

Lemma init_length : List.length (myModel.Layers net) = num_layers.
Proof.
  unfold net, myModel.init. simpl. now rewrite length_map, length_seq.
Qed.

(** X23.  On a network built by [myModel.__init__],
    [GradFalse(block, 'greedy')] with [1 <= block < num_layers] returns:
    the layers below [block] are frozen, layer [block] has the parameter
    values drawn for layer [block - 1] and is still trainable, and the
    layers above [block] are as built. *)
Theorem GradFalse_greedy_on_new_network (block : Z) :
  (1 <= block < Z.of_nat num_layers)%Z ->
  let k := Z.to_nat block in
  exists self' : myModel.t,
    myModel.GradFalse net block "greedy" = Ok self'
    /\ (forall (i : nat) (b' : Block.t),
          (i < k)%nat ->
          nth_error (myModel.Layers self') i = Some b' -> frozen b')
    /\ (exists b' : Block.t,
          nth_error (myModel.Layers self') k = Some b'
          /\ param_values b'
             = param_values
                 (Block.init input_dim N_updates_W N_updates_C
                    gamma_c gamma_w eps nu zeta (rand (k - 1)))
          /\ Block.training b' = true
          /\ Forall (fun p => requires_grad p = true /\ grad p = None)
               (Block.parameters b'))
    /\ (forall i : nat,
          (k < i)%nat ->
          nth_error (myModel.Layers self') i
          = nth_error (myModel.Layers net) i).
Proof.
  intros Hb k.
  assert (Hlen := init_length).
  destruct (nth_error (myModel.Layers net) k) as [target|] eqn:Htarget;
    [|apply nth_error_None in Htarget; unfold k in Htarget; lia].
  destruct (nth_error (myModel.Layers net) (k - 1)) as [source|] eqn:Hsource;
    [|apply nth_error_None in Hsource; unfold k in Hsource; lia].
  destruct (init_layer _ _ Htarget) as [_ Ht].
  destruct (init_layer _ _ Hsource) as [_ Hs].
  assert (Hk : (k < List.length (myModel.Layers net))%nat)
    by (unfold k; lia).
  eexists. split.
  - replace net with (myModel.mk (myModel.Layers net)) at 1
      by (destruct net; reflexivity).
    apply (GradFalse_greedy_eval _ block target source);
      [lia|exact Htarget|exact Hsource|].
    subst target source. reflexivity.
  - fold k. simpl myModel.Layers. split; [|split].
    + intros i b' Hi Hnth. rewrite nth_error_freeze_prefix in Hnth.
      rewrite (proj2 (Nat.ltb_lt i k) Hi) in Hnth.
      destruct (nth_error _ i); [|discriminate].
      injection Hnth as <-. apply freeze_block_frozen.
    + exists (copy_values target source). split.
      * rewrite nth_error_freeze_prefix, Nat.ltb_irrefl.
        rewrite nth_error_ModuleList_store by assumption.
        now rewrite Nat.eqb_refl.
      * subst target source. split; [reflexivity|].
        split; [reflexivity|].
        unfold Block.parameters. simpl. repeat constructor.
    + intros i Hi. rewrite nth_error_freeze_prefix.
      rewrite (proj2 (Nat.ltb_ge i k)) by lia.
      rewrite nth_error_ModuleList_store by assumption.
      now rewrite (proj2 (Nat.eqb_neq i k)) by lia.
Qed.

End Constructors.

(** * The further properties on the demo network *)

Lemma demo_functions_keep_extent :
  primitives_keep_extent (H := demo_functions).
Proof.
  repeat split; try reflexivity. simpl. apply length_map.
Defined.

Lemma reference_nn_reads_data : Linear_reads_data (H0 := reference_nn).
Proof.
  intros l l' x Hw Hb. simpl. unfold reference_linear.
  now rewrite Hw, Hb.
Qed.

Lemma demo_net1_forward_returns :
  exists W' C' : Tensor,
    myModel.forward (H := demo_functions) (H0 := reference_nn) demo_net1
      demo_Rx demo_W demo_C "first_layer" 0
    = Ok (W', C').
Proof. do 2 eexists. reflexivity. Qed.

Lemma demo_net5_GradFalse_returns :
  exists self' : myModel.t,
    myModel.GradFalse demo_net5 3 "greedy" = Ok self'.
Proof.
  eexists.
  apply (GradFalse_greedy_eval (myModel.Layers demo_net5) 3
           (demo_block 4 1) (demo_block 3 1)); [lia| | |]; reflexivity.
Qed.

(** X1 on the demo primitives, for 2 + 3 sub-steps. *)
Lemma W_iter_forward_without_inertia_demo :
  primitives_keep_extent (H := demo_functions)
  /\ W_iter.forward (H := demo_functions) (W_iter.mk (2 + 3)) demo_Rx demo_W
       demo_C (1 / 2) 0
     = (W' <- W_iter.forward (H := demo_functions) (W_iter.mk 2) demo_Rx
                demo_W demo_C (1 / 2) 0 ;;
        W_iter.forward (H := demo_functions) (W_iter.mk 3) demo_Rx W' demo_C
          (1 / 2) 0).
Proof.
  split; [exact demo_functions_keep_extent|].
  exact (proj2 (W_iter_forward_without_inertia (H := demo_functions)
                  demo_Rx demo_C (1 / 2) demo_W 2 3
                  demo_functions_keep_extent)).
Defined.

(** X2 on the demo primitives: the zero tensor is a fixed point. *)
Lemma W_iter_forward_fixed_point_demo :
  spec_W_plain_step (H := demo_functions) demo_Rx demo_C (1 / 2) zero_W
  = zero_W
  /\ W_iter.forward (H := demo_functions) (W_iter.mk 4) demo_Rx zero_W demo_C
       (1 / 2) (1 / 3)
     = Ok zero_W.
Proof.
  assert (Hfix : spec_W_plain_step (H := demo_functions) demo_Rx demo_C
                   (1 / 2) zero_W = zero_W).
  { unfold spec_W_plain_step, zero_W, t_sub, t_scale. simpl.
    do 2 f_equal. lra. }
  split; [exact Hfix|].
  exact (W_iter_forward_fixed_point (H := demo_functions) demo_Rx demo_C
           (1 / 2) (W_iter.mk 4) zero_W (1 / 3) Hfix).
Defined.

(** X3 on the demo primitives. *)
Lemma W_iter_forward_keeps_shape_demo :
  exists W' : Tensor,
    W_iter.forward (H := demo_functions) (W_iter.mk 3) demo_Rx demo_W demo_C
      (1 / 2) (1 / 3)
    = Ok W'
    /\ shape W' = [1; 1; 1]%nat.
Proof.
  exact (W_iter_forward_keeps_shape (H := demo_functions) demo_Rx demo_C
           (1 / 2) (W_iter.mk 3) demo_W (1 / 3)
           demo_functions_keep_extent).
Defined.


(** X8 and X9 on the demo block. *)
Lemma Block_forward_returns_updates_demo :
  exists (W' C' : Tensor) (alpha : R),
    Block.forward (H := demo_functions) (H0 := reference_nn)
      (demo_block 2 1) demo_Rx demo_W demo_C demo_C
    = Ok (W', C', demo_C)
    /\ C' = spec_C_plain_step (H := demo_functions) demo_Rx demo_C W'
              (1 / alpha) alpha (1 / 1000000000000).
Proof.
  destruct demo_block_forward_returns as (W' & C' & Hret).
  destruct (Block_forward_returns_updates (H := demo_functions)
              (H0 := reference_nn) _ _ _ _ _ _ _ _ Hret)
    as (alpha & c_w & beta_w & c_c & beta_c & _ & _ & _ & HC & _).
  exists W', C', alpha. split; [exact Hret|exact HC].
Defined.

Lemma Block_forward_keeps_shapes_demo :
  exists W' C' : Tensor,
    Block.forward (H := demo_functions) (H0 := reference_nn)
      (demo_block 2 1) demo_Rx demo_W demo_C demo_C
    = Ok (W', C', demo_C)
    /\ shape W' = [1; 1; 1]%nat /\ shape C' = [1; 1; 1]%nat.
Proof.
  destruct demo_block_forward_returns as (W' & C' & Hret).
  destruct (Block_forward_keeps_shapes (H := demo_functions)
              (H0 := reference_nn) _ _ _ _ _ _ _ _
              demo_functions_keep_extent Hret) as (HW & HC & _).
  exists W', C'. split; [exact Hret|]. split; assumption.
Defined.

(** X12 on the five-layer network: the layer argument -1 runs the last
    block. *)
Lemma forward_negative_layer_demo :
  (- Z.of_nat (List.length (myModel.Layers demo_net5)) <= -1 < 0)%Z
  /\ myModel.forward (H := demo_functions) (H0 := reference_nn) demo_net5
       demo_Rx demo_W demo_C "greedy" (-1)
     = spec_single_block (H := demo_functions) (H0 := reference_nn)
         (demo_block 5 1) demo_Rx demo_W demo_C.
Proof.
  split; [simpl; lia|].
  apply (forward_negative_layer (H := demo_functions) (H0 := reference_nn)
           demo_net5 demo_Rx demo_W demo_C "greedy" (-1) (demo_block 5 1)).
  - right; reflexivity.
  - simpl; lia.
  - reflexivity.
Defined.

(** X14 on the one-layer network. *)
Lemma forward_keeps_shapes_demo :
  exists W' C' : Tensor,
    myModel.forward (H := demo_functions) (H0 := reference_nn) demo_net1
      demo_Rx demo_W demo_C "first_layer" 0
    = Ok (W', C')
    /\ shape W' = [1; 1; 1]%nat /\ shape C' = [1; 1; 1]%nat.
Proof.
  destruct demo_net1_forward_returns as (W' & C' & Hret).
  exists W', C'. split; [exact Hret|].
  exact (forward_keeps_shapes (H := demo_functions) (H0 := reference_nn)
           demo_net1 demo_Rx demo_W demo_C W' C' "first_layer" 0
           demo_functions_keep_extent Hret).
Defined.

(** X15 on a network whose second block has no [C] update. *)
Lemma forward_test_needs_C_updates_demo :
  In (demo_block 1 0) (myModel.Layers broken_net)
  /\ C_iter.N_updates_C (Block.C_iter (demo_block 1 0)) = 0%nat
  /\ myModel.forward (H := demo_functions) (H0 := reference_nn) broken_net
       demo_Rx demo_W demo_C "test" 0
     <> Ok (demo_W, demo_C).
Proof.
  split; [right; left; reflexivity|]. split; [reflexivity|].
  apply (forward_test_needs_C_updates (H := demo_functions)
           (H0 := reference_nn) broken_net demo_Rx demo_W demo_C 0
           (demo_block 1 0)).
  - right; left; reflexivity.
  - reflexivity.
Defined.

(** X16 on the five-layer network: [block = 5] freezes every layer, and
    [block = 6] raises. *)
Lemma GradFalse_plain_cases_demo :
  "first_layer"%string <> "greedy"%string
  /\ (exists self' : myModel.t,
        myModel.GradFalse demo_net5 5 "first_layer" = Ok self'
        /\ Forall frozen (firstn 5 (myModel.Layers self')))
  /\ myModel.GradFalse demo_net5 6 "first_layer" = Raise IndexError.
Proof.
  assert (Hmode : "first_layer"%string <> "greedy"%string) by discriminate.
  split; [exact Hmode|].
  destruct (GradFalse_plain_cases demo_net5 5 "first_layer" Hmode)
    as (_ & Hin & _).
  destruct (GradFalse_plain_cases demo_net5 6 "first_layer" Hmode)
    as (_ & _ & Hout).
  split.
  - destruct (Hin ltac:(simpl; lia)) as (self' & Hcall & _ & Hfrozen).
    exists self'. split; [exact Hcall|exact Hfrozen].
  - apply Hout. simpl; lia.
Defined.

(** X17 and X21 on the five-layer network, for [GradFalse(3, 'greedy')]. *)
Lemma GradFalse_idempotent_demo :
  exists self' : myModel.t,
    myModel.GradFalse demo_net5 3 "greedy" = Ok self'
    /\ myModel.GradFalse self' 3 "greedy" = Ok self'.
Proof.
  destruct demo_net5_GradFalse_returns as [self' Hcall].
  exists self'. split; [exact Hcall|].
  exact (GradFalse_idempotent demo_net5 self' 3 "greedy" Hcall).
Defined.

Lemma GradFalse_keeps_architecture_demo :
  exists self' : myModel.t,
    myModel.GradFalse demo_net5 3 "greedy" = Ok self'
    /\ List.length (myModel.Layers self') = 5%nat
    /\ same_architecture self'.
Proof.
  destruct demo_net5_GradFalse_returns as [self' Hcall].
  destruct (GradFalse_keeps_architecture demo_net5 self' 3 "greedy" Hcall)
    as (Hlen & _ & Harch).
  exists self'. split; [exact Hcall|].
  split; [exact Hlen|exact (Harch demo_net5_same_architecture)].
Defined.

(** X18 on the five-layer network: freezing two layers, then four. *)
Lemma GradFalse_plain_composes_demo :
  (self1 <- myModel.GradFalse demo_net5 2 "first_layer" ;;
   myModel.GradFalse self1 4 "test")
  = myModel.GradFalse demo_net5 (Z.max 2 4) "first_layer".
Proof.
  apply (GradFalse_plain_composes demo_net5 2 4 "first_layer" "test");
    try discriminate; simpl; lia.
Defined.

(** X19 on the five-layer network with the reference [Linear]. *)
Lemma GradFalse_plain_keeps_forward_demo :
  exists self' : myModel.t,
    myModel.GradFalse demo_net5 2 "first_layer" = Ok self'
    /\ myModel.forward (H := demo_functions) (H0 := reference_nn) self'
         demo_Rx demo_W demo_C "test" 0
       = myModel.forward (H := demo_functions) (H0 := reference_nn)
           demo_net5 demo_Rx demo_W demo_C "test" 0.
Proof.
  assert (Hmode : "first_layer"%string <> "greedy"%string) by discriminate.
  eexists. split.
  - apply GradFalse_plain_in_range; [exact Hmode|simpl; lia].
  - apply (GradFalse_plain_keeps_forward (H := demo_functions)
             (H0 := reference_nn) demo_net5 _ 2 "first_layer" demo_Rx demo_W
             demo_C "test" 0 reference_nn_reads_data Hmode).
    apply GradFalse_plain_in_range; [exact Hmode|simpl; lia].
Defined.

(** X20 on [varied_net]: after [GradFalse(3, 'greedy')] layer 3, whose
    parameters differed from those of layer 2, predicts what layer 2
    predicted. *)
Lemma GradFalse_greedy_starts_from_previous_demo :
  nth_error (myModel.Layers varied_net) 2 = Some (varied_layer 2)
  /\ nth_error (myModel.Layers varied_net) 3 = Some (varied_layer 3)
  /\ param_values (varied_layer 2) <> param_values (varied_layer 3)
  /\ exists (self' : myModel.t) (b' : Block.t),
       myModel.GradFalse varied_net 3 "greedy" = Ok self'
       /\ nth_error (myModel.Layers self') 3 = Some b'
       /\ FCNN_alpha.forward (H := reference_nn) (Block.NN_alpha b') demo_W
            demo_C
          = FCNN_alpha.forward (H := reference_nn)
              (Block.NN_alpha (varied_layer 2)) demo_W demo_C.
Proof.
  split; [reflexivity|]. split; [reflexivity|].
  split; [exact varied_net_layers_differ|].
  set (copied := copy_values (varied_layer 3) (varied_layer 2)).
  assert (Hcall : myModel.GradFalse varied_net 3 "greedy"
                  = Ok (myModel.mk
                          (freeze_prefix 3
                             (ModuleList_store (myModel.Layers varied_net) 3
                                copied)))).
  { apply (GradFalse_greedy_eval (myModel.Layers varied_net) 3
             (varied_layer 3) (varied_layer 2)); [lia| | |]; reflexivity. }
  eexists. exists copied.
  split; [exact Hcall|]. split; [reflexivity|].
  exact (proj1 (GradFalse_greedy_starts_from_previous
                  (H := demo_functions) (H0 := reference_nn) varied_net _ 3
                  copied (varied_layer 3) (varied_layer 2) demo_Rx demo_W
                  demo_C demo_C reference_nn_reads_data ltac:(lia)
                  Hcall eq_refl eq_refl eq_refl)).
Defined.

(** X23 on a new network of three layers, for [GradFalse(1, 'greedy')]. *)
Lemma GradFalse_greedy_on_new_network_demo :
  (1 <= 1 < Z.of_nat 3)%Z
  /\ exists self' : myModel.t,
       myModel.GradFalse new_net 1 "greedy" = Ok self'
       /\ (forall (i : nat) (b' : Block.t),
             (i < 1)%nat ->
             nth_error (myModel.Layers self') i = Some b' -> frozen b').
Proof.
  split; [lia|].
  destruct (GradFalse_greedy_on_new_network 2 1 1 3 1 (99 / 100)
              (1 / 1000000000000) (1 / 2) (1 / 10) (fun _ _ _ => 0) 1
              ltac:(lia))
    as (self' & Hcall & Hfrozen & _).
  exists self'. split; [exact Hcall|exact Hfrozen].
Defined.
